(** * code-ingest backend: chunker, embedder and in-memory vector store

    A shallow embedding of [backend/app/chunker.py], [backend/app/embeddings.py]
    and [backend/app/vector_store.py], with the properties of the retrieval
    pipeline proved about it.

    Conventions of the embedding.
    - A Python [str] is the list of its code points ([list N]).
    - A Python [int] is a [Z].
    - A Python [float] is an IEEE-754 binary64 number, Rocq's primitive
      [float]. The store and the embedder are written once over a small
      interface of arithmetic operations ([Arith]); its binary64 instance is
      the program, and its instance at the real numbers is the same
      algorithm without rounding, overflow or underflow.
    - A raised exception is the [Raise] case of [result]. *)

From Stdlib Require Import ZArith Lia List Bool Ascii String DecimalString DecimalZ.
From Stdlib Require Import Floats Uint63.
From Stdlib Require Import Reals Lra.
From Stdlib Require Import Sorting.Sorted.
From stdpp Require Import base option list gmap.

Local Open Scope Z_scope.

(** ** Python values *)

Module Py.

(** A Python string: the sequence of its code points. *)
Definition str := list N.

(** The code points of an ASCII literal of the source. *)
Definition lit (s : string) : str := map N_of_ascii (list_ascii_of_string s).

(** The exceptions the three modules raise. The source raises [ValueError]
    everywhere and tells the cases apart by the message; [str.encode] raises
    [UnicodeEncodeError]. *)
Inductive exn : Type :=
| ValueError (msg : string)
| UnicodeEncodeError.

Inductive result (A : Type) : Type :=
| Ok (a : A)
| Raise (e : exn).
Arguments Ok {A} a.
Arguments Raise {A} e.

(** [str(n)] for an [int]. *)
Definition str_of_int (n : Z) : str := lit (NilEmpty.string_of_int (Z.to_int n)).

(** [sep.join(parts)]. *)
Fixpoint join (sep : str) (parts : list str) : str :=
  match parts with
  | [] => []
  | [p] => p
  | p :: rest => p ++ sep ++ join sep rest
  end.

(** [l[i:j]] for indices [0 <= i], [0 <= j]: Python clips the slice to the
    list and returns the empty list when [j <= i]. *)
Definition slice {A} (l : list A) (i j : Z) : list A :=
  firstn (Z.to_nat (j - i)) (skipn (Z.to_nat i) l).

(** The characters [str.splitlines] treats as line boundaries: LF, VT, FF,
    CR, FS, GS, RS, NEL, LINE SEPARATOR and PARAGRAPH SEPARATOR. *)
Definition is_linebreak (c : N) : bool :=
  match c with
  | 10 | 11 | 12 | 13 | 28 | 29 | 30 | 133 | 8232 | 8233 => true
  | _ => false
  end%N.

(** [str.splitlines()] without [keepends]. [cur] holds, reversed, the
    characters read since the last boundary. A CR LF pair is one boundary,
    and a boundary at the very end opens no further line. *)
Fixpoint splitlines_from (cur : str) (s : str) : list str :=
  match s with
  | [] => match cur with [] => [] | _ => [rev cur] end
  | c :: rest =>
      if is_linebreak c then
        rev cur ::
          (if N.eqb c 13 then
             match rest with
             | 10%N :: rest' => splitlines_from [] rest'
             | _ => splitlines_from [] rest
             end
           else splitlines_from [] rest)
      else splitlines_from (c :: cur) rest
  end.

Definition splitlines (s : str) : list str := splitlines_from [] s.

End Py.

Import Py.

(** ** chunker.py *)

Module Chunker.

(** The [metadata] dictionary of a chunk has exactly the two keys
    [start_line] and [end_line]. *)
Record Metadata : Type := { start_line : Z; end_line : Z }.

(** One element of the list [chunk_file_text] returns: the dictionary with
    keys [id], [text] and [metadata]. *)
Record Chunk : Type := { id : str; text : str; metadata : Metadata }.

Definition msg_max_lines : string := "max_lines must be greater than 0".
Definition msg_overlap : string := "overlap_lines must be non-negative".

(** [f"chunk-{start_line}-{end_line}"] *)
Definition chunk_id (start_line end_line : Z) : str :=
  lit "chunk-" ++ str_of_int start_line ++ lit "-" ++ str_of_int end_line.

(** [overlap = min(overlap_lines, max_lines - 1) if max_lines > 1 else 0] *)
Definition effective_overlap (max_lines overlap_lines : Z) : Z :=
  if 1 <? max_lines then Z.min overlap_lines (max_lines - 1) else 0.

(** [step = max(1, max_lines - overlap)] *)
Definition step_size (max_lines overlap : Z) : Z := Z.max 1 (max_lines - overlap).

(** The [while start_index < total_lines] loop. Each unit of [fuel] pays for
    one test of the loop condition; [None] means the fuel ran out before the
    loop was left. *)
Fixpoint chunk_loop (fuel : nat) (lines : list str) (total_lines max_lines step : Z)
    (start_index : Z) (chunks : list Chunk) : option (list Chunk) :=
  match fuel with
  | O => None
  | S fuel' =>
      if start_index <? total_lines then
        let end_index := Z.min total_lines (start_index + max_lines) in
        let chunk_lines := slice lines start_index end_index in
        let start_line := start_index + 1 in
        let end_line := start_index + Z.of_nat (length chunk_lines) in
        let chunk_id := chunk_id start_line end_line in
        let chunk_text := join (lit (String (ascii_of_nat 10) EmptyString)) chunk_lines in
        let chunks := chunks ++
          [ {| id := chunk_id; text := chunk_text;
               metadata := {| start_line := start_line; end_line := end_line |} |} ] in
        if total_lines <=? end_index then Some chunks
        else chunk_loop fuel' lines total_lines max_lines step (start_index + step) chunks
      else Some chunks
  end.

(** [chunk_file_text(text, max_lines, overlap_lines)], run with [fuel]
    iterations at most. *)
Definition chunk_file_text_fuel (fuel : nat) (text : str) (max_lines overlap_lines : Z)
  : option (result (list Chunk)) :=
  if max_lines <=? 0 then Some (Raise (ValueError msg_max_lines))
  else if overlap_lines <? 0 then Some (Raise (ValueError msg_overlap))
  else
    let lines := splitlines text in
    match lines with
    | [] => Some (Ok [])
    | _ =>
        let total_lines := Z.of_nat (length lines) in
        let overlap := effective_overlap max_lines overlap_lines in
        let step := step_size max_lines overlap in
        match chunk_loop fuel lines total_lines max_lines step 0 [] with
        | Some chunks => Some (Ok chunks)
        | None => None
        end
    end.

(** The loop tests its condition at most once per line of the text, so this
    much fuel always suffices. *)
Definition chunk_file_text (text : str) (max_lines overlap_lines : Z)
  : option (result (list Chunk)) :=
  chunk_file_text_fuel (length (splitlines text)) text max_lines overlap_lines.

(** The pair [(start_line, end_line)] of a chunk. *)
Definition range (c : Chunk) : Z * Z := (start_line (metadata c), end_line (metadata c)).

(** The synthetic file of the module's demonstration:
    ["\n".join(f"Line {i}" for i in range(1, n + 1))]. *)
Definition sample_text (n : nat) : str :=
  join (lit (String (ascii_of_nat 10) EmptyString))
       (map (fun i => lit "Line " ++ str_of_int (Z.of_nat i)) (seq 1 n)).

End Chunker.


(** ** Arithmetic of [float] values *)

(** The operations on numbers that the embedder and the store use. [zero]
    is the literal [0.0] (and the [int] [0] that [sum] starts from, which
    Python converts to [0.0] at the first addition); [of_int n] is the
    [float] that an [int] operand [0 <= n < 2 ** 63] is converted to;
    [is_zero x] is [x == 0], [lt x y] is [x < y]. *)
Class Arith (F : Type) : Type := {
  zero : F;
  of_int : Z -> F;
  add : F -> F -> F;
  mul : F -> F -> F;
  div : F -> F -> F;
  sqrt : F -> F;
  is_zero : F -> bool;
  lt : F -> F -> bool;
}.

(** Python's [float]: IEEE-754 binary64 with round-to-nearest-even. [==] and
    [<] are the IEEE comparisons: [-0.0 == 0] holds and every comparison
    with a NaN is false. Division is the IEEE one; Python raises
    [ZeroDivisionError] on a zero divisor instead, but both divisions of the
    store are guarded by a test of the norms against zero. *)
#[export] Instance float_arith : Arith float := {|
  zero := PrimFloat.zero;
  of_int := fun n => PrimFloat.of_uint63 (Uint63.of_Z n);
  add := PrimFloat.add;
  mul := PrimFloat.mul;
  div := PrimFloat.div;
  sqrt := PrimFloat.sqrt;
  is_zero := fun x => PrimFloat.eqb x PrimFloat.zero;
  lt := PrimFloat.ltb;
|}.


Module Builtin.

(** The builtin [sum] over [float] values: it adds from the left, starting
    from [0]. (From Python 3.12 on the builtin carries a compensation term
    along; that can change the last bits of a sum of three or more terms,
    and no statement below depends on them.) *)
Definition sum {F} {A : Arith F} (l : list F) : F := fold_left add l zero.

End Builtin.

(** ** embeddings.py *)

Module Embeddings.

Definition msg_dim : string := "dim must be positive".

Section Embed.

Context {F : Type} {A : Arith F}.

Definition Vector : Type := list F.

(** [hashlib.sha256(data).hexdigest()], a function of the standard library:
    from the bytes of [data] to a string. *)
Variable sha256_hexdigest : list N -> str.

(** The bytes of one character in UTF-8. Python refuses to encode a
    surrogate (U+D800 to U+DFFF) and raises [UnicodeEncodeError]; a [str]
    holds no code point above U+10FFFF. *)
Definition encode_char (c : N) : result (list N) :=
  (if c <? 128 then Ok [c]
   else if c <? 2048 then Ok [192 + c / 64; 128 + c mod 64]
   else if (55296 <=? c) && (c <=? 57343) then Raise UnicodeEncodeError
   else if c <? 65536 then Ok [224 + c / 4096; 128 + (c / 64) mod 64; 128 + c mod 64]
   else Ok [240 + c / 262144; 128 + (c / 4096) mod 64; 128 + (c / 64) mod 64; 128 + c mod 64])%N.

(** [s.encode('utf-8')] *)
Fixpoint encode (s : str) : result (list N) :=
  match s with
  | [] => Ok []
  | c :: s' =>
      match encode_char c with
      | Raise e => Raise e
      | Ok bytes =>
          match encode s' with
          | Raise e => Raise e
          | Ok bytes' => Ok (bytes ++ bytes')
          end
      end
  end.

(** The [while len(hex_data) < total_chars] loop of [_hex_stream]. Each
    unit of [fuel] pays for one test of the loop condition. *)
Fixpoint hex_stream_loop (fuel : nat) (text : str) (total_chars : Z)
    (hex_data : str) (counter : Z) : option (result str) :=
  match fuel with
  | O => None
  | S fuel' =>
      if Z.of_nat (length hex_data) <? total_chars then
        match encode (text ++ lit ":" ++ str_of_int counter) with
        | Raise e => Some (Raise e)
        | Ok bytes =>
            let counter_digest := sha256_hexdigest bytes in
            hex_stream_loop fuel' text total_chars (hex_data ++ counter_digest) (counter + 1)
        end
      else Some (Ok hex_data)
  end.

(** [_hex_stream(text, total_chars)], for [total_chars >= 0] as
    [embed_texts] calls it. *)
Definition _hex_stream (fuel : nat) (text : str) (total_chars : Z) : option (result str) :=
  match encode text with
  | Raise e => Some (Raise e)
  | Ok bytes =>
      let digest := sha256_hexdigest bytes in
      match hex_stream_loop fuel text total_chars digest 1 with
      | Some (Ok hex_data) => Some (Ok (slice hex_data 0 total_chars))
      | other => other
      end
  end.

Definition _normalize (vector : Vector) : Vector :=
  let norm := sqrt (Builtin.sum (map (fun value => mul value value) vector)) in
  if is_zero norm then map (fun _ => zero) vector
  else map (fun value => div value norm) vector.

(** The value of a hexadecimal digit; the digest holds no other character. *)
Definition hex_digit (c : N) : Z :=
  if ((48 <=? c) && (c <=? 57))%N then Z.of_N c - 48
  else if ((97 <=? c) && (c <=? 102))%N then Z.of_N c - 87
  else if ((65 <=? c) && (c <=? 70))%N then Z.of_N c - 55
  else 0.

(** [int(s, 16)] for a string of hexadecimal digits. *)
Definition int16 (s : str) : Z := fold_left (fun n c => 16 * n + hex_digit c) s 0.

(** [[int(hex_data[i:i + 2], 16) / 255.0 for i in range(0, len(hex_data), 2)]] *)
Fixpoint chunk_values (hex_data : str) : list F :=
  match hex_data with
  | [] => []
  | [c] => [div (of_int (int16 [c])) (of_int 255)]
  | c1 :: c2 :: hex_data' => div (of_int (int16 [c1; c2])) (of_int 255) :: chunk_values hex_data'
  end.

(** The loop of [embed_texts] over [texts], with the list [vectors]. *)
Fixpoint embed_loop (fuel : nat) (texts : list str) (dim : Z) (vectors : list Vector)
  : option (result (list Vector)) :=
  match texts with
  | [] => Some (Ok vectors)
  | text :: texts' =>
      match _hex_stream fuel text (dim * 2) with
      | None => None
      | Some (Raise e) => Some (Raise e)
      | Some (Ok hex_data) =>
          let chunk_values := chunk_values hex_data in
          let vector := slice chunk_values 0 dim in
          embed_loop fuel texts' dim (vectors ++ [_normalize vector])
      end
  end.

(** [embed_texts(texts, dim)]; [fuel] bounds the iterations of each run of
    the loop of [_hex_stream]. *)
Definition embed_texts (fuel : nat) (texts : list str) (dim : Z)
  : option (result (list Vector)) :=
  if dim <=? 0 then Some (Raise (ValueError msg_dim))
  else embed_loop fuel texts dim [].

End Embed.

End Embeddings.

(** ** vector_store.py *)

Module VectorStore.

Definition msg_dimension : string := "Vectors must have the same dimensionality".
Definition msg_repo_id : string := "repo_id must be non-empty".
Definition msg_vector : string := "Each vector must be a non-empty list of floats".

(** The two kinds of error of the specification, as the exceptions that the
    store raises for them. *)
Definition DimensionMismatch : exn := ValueError msg_dimension.
Definition InvalidArgument (e : exn) : Prop :=
  e = ValueError msg_repo_id \/ e = ValueError msg_vector.

Section Store.

Context {F : Type} {A : Arith F}.
(** [Dict[str, object]]: the store never looks inside a metadata value. *)
Context {Meta : Type}.

Definition Vector : Type := list F.
Definition StoredItem : Type := str * Vector * Meta.

(** The dictionary [{"id": .., "score": .., "metadata": ..}] of one result. *)
Record SearchResult : Type := { id : str; score : F; metadata : Meta }.

(** [self.data] *)
Local Abbreviation Store := (gmap str (list StoredItem)).

(** [SimpleVectorStore()] *)
Definition init : Store := ∅.

(** [sum(x * y for x, y in zip(a, b))]; [zip] stops at the shorter list. *)
Definition dot (a b : Vector) : F :=
  Builtin.sum (map (fun xy => mul (fst xy) (snd xy)) (combine a b)).

(** [sqrt(sum(x * x for x in a))] *)
Definition norm (a : Vector) : F := sqrt (Builtin.sum (map (fun x => mul x x) a)).

Definition _cosine_similarity (a b : Vector) : result F :=
  if negb (Nat.eqb (length a) (length b)) then Raise (ValueError msg_dimension)
  else
    let dot := dot a b in
    let norm_a := norm a in
    let norm_b := norm b in
    if is_zero norm_a || is_zero norm_b then Ok zero
    else Ok (div dot (mul norm_a norm_b)).

Definition _normalize (vector : Vector) : Vector :=
  let norm := norm vector in
  if is_zero norm then vector
  else map (fun value => div value norm) vector.

(** The loop of [add_vectors] over [items], with the local list
    [normalized_items] it appends to. *)
Fixpoint normalize_items (items : list StoredItem) (normalized_items : list StoredItem)
  : result (list StoredItem) :=
  match items with
  | [] => Ok normalized_items
  | (chunk_id, vector, metadata) :: items' =>
      match vector with
      | [] => Raise (ValueError msg_vector)
      | _ =>
          let normalized := _normalize vector in
          normalize_items items' (normalized_items ++ [(chunk_id, normalized, metadata)])
      end
  end.

(** [add_vectors(repo_id, items)]: the outcome of the call and the store
    after it. [setdefault] followed by [extend] leaves the partition, created
    if missing, with the new items at its end. *)
Definition add_vectors (data : Store) (repo_id : str) (items : list StoredItem)
  : result unit * Store :=
  match repo_id with
  | [] => (Raise (ValueError msg_repo_id), data)
  | _ =>
      match items with
      | [] => (Ok tt, data)
      | _ =>
          match normalize_items items [] with
          | Raise e => (Raise e, data)
          | Ok normalized_items =>
              let repo_items := default [] (data !! repo_id) in
              (Ok tt, <[repo_id := repo_items ++ normalized_items]> data)
          end
      end
  end.

(** The loop of [search] over the partition, with the list [results]. *)
Fixpoint score_items (query : Vector) (repo_items : list StoredItem) (results : list SearchResult)
  : result (list SearchResult) :=
  match repo_items with
  | [] => Ok results
  | (chunk_id, vector, metadata) :: repo_items' =>
      match _cosine_similarity query vector with
      | Raise e => Raise e
      | Ok score =>
          score_items query repo_items'
            (results ++ [ {| id := chunk_id; score := score; metadata := metadata |} ])
      end
  end.

(** [list.sort] is a stable sort that compares with [<] only. It is modelled
    by the stable insertion sort: an element goes behind every element that
    is not greater than it. Whenever [<] orders the keys as a strict weak
    order, which for [float] keys means that none is a NaN, every stable sort
    returns this same list. *)
Fixpoint insert_by {X} (key : X -> F) (x : X) (sorted : list X) : list X :=
  match sorted with
  | [] => [x]
  | y :: sorted' =>
      if lt (key x) (key y) then x :: y :: sorted'
      else y :: insert_by key x sorted'
  end.

Definition sort_by {X} (key : X -> F) (l : list X) : list X :=
  fold_left (fun sorted x => insert_by key x sorted) l [].

(** [l.sort(key=key, reverse=True)]: Python reverses the list, sorts it
    stably in ascending order and reverses it again, so that elements with
    equal keys keep their original order. *)
Definition sort_by_reverse {X} (key : X -> F) (l : list X) : list X :=
  rev (sort_by key (rev l)).

(** [search(repo_id, query_vector, k)]. The store is only read. *)
Definition search (data : Store) (repo_id : str) (query_vector : Vector) (k : Z)
  : result (list SearchResult) :=
  if k <=? 0 then Ok []
  else
    match data !! repo_id with
    | None | Some [] => Ok []
    | Some repo_items =>
        let query := _normalize query_vector in
        match score_items query repo_items [] with
        | Raise e => Raise e
        | Ok results => Ok (firstn (Z.to_nat k) (sort_by_reverse score results))
        end
    end.


(** The score of a stored vector of the same length as the query: what
    [_cosine_similarity] returns when it does not raise. *)
Definition cosine (a b : Vector) : F :=
  if is_zero (norm a) || is_zero (norm b) then zero
  else div (dot a b) (mul (norm a) (norm b)).

(** The result for a stored item whose vector has the length of the query. *)
Definition scored (query : Vector) (item : StoredItem) : SearchResult :=
  {| id := item.1.1; score := cosine query item.1.2; metadata := item.2 |}.

End Store.

End VectorStore.


(** ** vector_store.py, with the identity of list objects *)

(** In [VectorStore] a vector is the sequence of its values. A Python list
    is an object, though: the caller and the store may hold the same list,
    and an assignment to one of its elements is then seen by both. Here the
    lists live in a heap, a vector is a reference into it, and the store
    holds references. *)
Module VectorStoreObjects.

Section Objects.

Context {F : Type} {A : Arith F} {Meta : Type}.

(** The address of a list object. *)
Local Abbreviation ref := nat.

(** The list objects created so far, by address. *)
Local Abbreviation Heap := (list (list F)).

(** The contents of the list at [r]. *)
Definition contents (heap : Heap) (r : ref) : list F := default [] (heap !! r).

(** A new list object with the contents [v]. *)
Definition new_list (heap : Heap) (v : list F) : ref * Heap := (length heap, heap ++ [v]).

(** What the owner of the list at [r] does when it assigns to its elements,
    appends to it or clears it: the list at [r] has the contents [v]
    afterwards. *)
Definition mutate (heap : Heap) (r : ref) (v : list F) : Heap := <[r := v]> heap.

Definition StoredItem : Type := str * ref * Meta.

(** [_normalize(vector)]: the first branch returns the argument itself, the
    second one a list built by the comprehension. *)
Definition _normalize (heap : Heap) (vector : ref) : ref * Heap :=
  let norm := VectorStore.norm (contents heap vector) in
  if is_zero norm then (vector, heap)
  else new_list heap (map (fun value => div value norm) (contents heap vector)).

(** The loop of [add_vectors] over [items]. *)
Fixpoint normalize_items (heap : Heap) (items : list StoredItem)
    (normalized_items : list StoredItem) : result (list StoredItem) * Heap :=
  match items with
  | [] => (Ok normalized_items, heap)
  | (chunk_id, vector, metadata) :: items' =>
      match contents heap vector with
      | [] => (Raise (ValueError VectorStore.msg_vector), heap)
      | _ =>
          let '(normalized, heap') := _normalize heap vector in
          normalize_items heap' items' (normalized_items ++ [(chunk_id, normalized, metadata)])
      end
  end.

(** [add_vectors(repo_id, items)]: the outcome, the heap and [self.data]
    after the call. *)
Definition add_vectors (heap : Heap) (data : gmap str (list StoredItem))
    (repo_id : str) (items : list StoredItem)
  : result unit * Heap * gmap str (list StoredItem) :=
  match repo_id with
  | [] => (Raise (ValueError VectorStore.msg_repo_id), heap, data)
  | _ =>
      match items with
      | [] => (Ok tt, heap, data)
      | _ =>
          match normalize_items heap items [] with
          | (Raise e, heap') => (Raise e, heap', data)
          | (Ok normalized_items, heap') =>
              let repo_items := default [] (data !! repo_id) in
              (Ok tt, heap', <[repo_id := repo_items ++ normalized_items]> data)
          end
      end
  end.

(** The store as [search] reads it: every reference replaced by the
    contents that the list has now. *)
Definition snapshot (heap : Heap) (data : gmap str (list StoredItem))
  : gmap str (list (@VectorStore.StoredItem F Meta)) :=
  (fun items => map (fun item : StoredItem => (item.1.1, contents heap item.1.2, item.2)) items)
    <$> data.

(** [search(repo_id, query_vector, k)] reads the lists and changes none. *)
Definition search (heap : Heap) (data : gmap str (list StoredItem))
    (repo_id : str) (query_vector : ref) (k : Z)
  : result (list (@VectorStore.SearchResult F Meta)) :=
  VectorStore.search (snapshot heap data) repo_id (contents heap query_vector) k.

End Objects.

End VectorStoreObjects.

(** * Properties *)

(** ** Python values *)

Module PyFacts.

Lemma splitlines_from_nil (cur s : str) :
  splitlines_from cur s = [] -> cur = [] /\ s = [].
Proof.
  revert cur. induction s as [|c rest IH]; intros cur; simpl.
  - destruct cur; [tauto | discriminate].
  - destruct (is_linebreak c); [discriminate |].
    intros H. apply IH in H. destruct H as [H _]. discriminate.
Qed.

(** Only the empty string has no lines. *)
Lemma splitlines_nil (s : str) : splitlines s = [] <-> s = [].
Proof.
  split.
  - intros H. apply splitlines_from_nil in H. tauto.
  - intros ->. reflexivity.
Qed.

Lemma length_slice {A} (l : list A) (i j : Z) :
  0 <= i <= j -> j <= Z.of_nat (length l) ->
  Z.of_nat (length (slice l i j)) = j - i.
Proof.
  intros Hij Hj. unfold slice.
  rewrite length_firstn, length_skipn. lia.
Qed.

Lemma lit_inj (s t : string) : lit s = lit t -> s = t.
Proof.
  unfold lit. intros H.
  assert (Hl : list_ascii_of_string s = list_ascii_of_string t).
  { revert H. generalize (list_ascii_of_string s) (list_ascii_of_string t).
    induction l as [|a l IH]; intros [|b l'] H; simpl in H; try discriminate; [reflexivity|].
    injection H as Hab Hl. f_equal; [| now apply IH].
    rewrite <- (ascii_N_embedding a), <- (ascii_N_embedding b). now rewrite Hab. }
  rewrite <- (string_of_list_ascii_of_string s), <- (string_of_list_ascii_of_string t).
  now rewrite Hl.
Qed.

(** [str] is injective on integers. *)
Lemma str_of_int_inj (n m : Z) : str_of_int n = str_of_int m -> n = m.
Proof.
  unfold str_of_int. intros H. apply lit_inj in H.
  assert (Hi : Some (Z.to_int n) = Some (Z.to_int m)).
  { rewrite <- !NilEmpty.isi. now rewrite H. }
  injection Hi as Hi. now apply DecimalZ.to_int_inj.
Qed.

End PyFacts.

(** ** chunker.py *)

Module ChunkerFacts.

Import PyFacts Chunker.

(** *** Identifiers *)

Definition hyphen : N := 45%N.

Lemma uint_no_hyphen (d : Decimal.uint) :
  Forall (fun c => c <> hyphen) (lit (NilEmpty.string_of_uint d)).
Proof.
  induction d; simpl; try constructor; try assumption; unfold hyphen; discriminate.
Qed.

Lemma str_of_int_no_hyphen (n : Z) :
  0 <= n -> Forall (fun c => c <> hyphen) (str_of_int n).
Proof.
  intros Hn. unfold str_of_int.
  destruct n as [|p|p];
    [ exact (uint_no_hyphen (Decimal.D0 Decimal.Nil))
    | exact (uint_no_hyphen (Pos.to_uint p))
    | lia ].
Qed.

Lemma split_at_hyphen (a a' b b' : str) :
  Forall (fun c => c <> hyphen) a -> Forall (fun c => c <> hyphen) a' ->
  a ++ hyphen :: b = a' ++ hyphen :: b' -> a = a' /\ b = b'.
Proof.
  intros Ha. revert a'. induction Ha as [|x a Hx Ha IH]; intros a' Ha' H.
  - destruct Ha' as [|y a' Hy Ha']; simpl in H.
    + injection H as ->. tauto.
    + injection H as Hxy _. congruence.
  - destruct Ha' as [|y a' Hy Ha']; simpl in H.
    + injection H as Hxy _. congruence.
    + injection H as -> H. destruct (IH _ Ha' H) as [-> ->]. tauto.
Qed.

(** The identifier of a chunk determines its line range. *)
Lemma chunk_id_inj (s e s' e' : Z) :
  0 <= s -> 0 <= s' -> chunk_id s e = chunk_id s' e' -> s = s' /\ e = e'.
Proof.
  intros Hs Hs' H. unfold chunk_id in H.
  apply app_inv_head in H.
  change (lit "-" ++ ?x) with (hyphen :: x) in H.
  apply split_at_hyphen in H; try now apply str_of_int_no_hyphen.
  destruct H as [H1 H2]. split; now apply str_of_int_inj.
Qed.

(** *** The loop *)

Lemma chunk_loop_acc (fuel : nat) lines T M st s (acc : list Chunk) :
  chunk_loop fuel lines T M st s acc
  = option_map (app acc) (chunk_loop fuel lines T M st s []).
Proof.
  revert s acc. induction fuel as [|fuel IH]; intros s acc; simpl; [reflexivity|].
  destruct (s <? T); simpl; [| now rewrite app_nil_r].
  destruct (T <=? Z.min T (s + M)); simpl; [reflexivity|].
  rewrite IH. rewrite (IH _ [_]).
  destruct (chunk_loop fuel lines T M st (s + st) []); simpl; [| reflexivity].
  now rewrite <- app_assoc.
Qed.

(** The line ranges that the loop emits depend on the counters alone. *)
Fixpoint range_loop (fuel : nat) (T M st s : Z) : option (list (Z * Z)) :=
  match fuel with
  | O => None
  | S fuel' =>
      if s <? T then
        let e := Z.min T (s + M) in
        if T <=? e then Some [(s + 1, e)]
        else option_map (cons (s + 1, e)) (range_loop fuel' T M st (s + st))
      else Some []
  end.

Lemma chunk_loop_ranges (fuel : nat) (lines : list str) (M st s : Z) :
  0 <= M -> 0 <= st -> 0 <= s ->
  option_map (map range) (chunk_loop fuel lines (Z.of_nat (length lines)) M st s [])
  = range_loop fuel (Z.of_nat (length lines)) M st s.
Proof.
  intros HM Hst. revert s. induction fuel as [|fuel IH]; intros s Hs; simpl; [reflexivity|].
  set (T := Z.of_nat (length lines)) in *.
  destruct (Z.ltb_spec s T) as [HsT|HsT]; simpl; [| reflexivity].
  assert (Hlen : s + Z.of_nat (length (slice lines s (Z.min T (s + M)))) = Z.min T (s + M)).
  { rewrite length_slice; unfold T; lia. }
  destruct (Z.leb_spec T (Z.min T (s + M))) as [He|He]; simpl.
  - unfold range; simpl. now rewrite Hlen.
  - rewrite chunk_loop_acc, <- IH by lia.
    destruct (chunk_loop fuel lines T M st (s + st) []); simpl; [| reflexivity].
    unfold range at 1; simpl. now rewrite Hlen.
Qed.

(** Every chunk carries the identifier of its own line range. *)
Lemma chunk_loop_ids (fuel : nat) lines T M st s (acc chunks : list Chunk) :
  Forall (fun c => id c = chunk_id (start_line (metadata c)) (end_line (metadata c))) acc ->
  chunk_loop fuel lines T M st s acc = Some chunks ->
  Forall (fun c => id c = chunk_id (start_line (metadata c)) (end_line (metadata c))) chunks.
Proof.
  revert s acc. induction fuel as [|fuel IH]; intros s acc Hacc; simpl; [discriminate|].
  destruct (s <? T); [| now intros [= <-]].
  match goal with |- context [acc ++ [?new]] =>
    assert (Hc : Forall (fun c => id c = chunk_id (start_line (metadata c)) (end_line (metadata c)))
                   (acc ++ [new])) end.
  { apply Forall_app; split; [assumption|]. constructor; [reflexivity | constructor]. }
  destruct (T <=? Z.min T (s + M)); [now intros [= <-] |].
  now apply IH.
Qed.

Lemma last_cons {A} (l : list A) (x d : A) : List.last (x :: l) d = List.last l x.
Proof.
  revert x d. induction l as [|y l IH]; intros x d; [reflexivity|].
  change (List.last (y :: l) d = List.last (y :: l) x). now rewrite (IH y d), (IH y x).
Qed.

(** What the ranges look like when the loop is entered at line index [s]
    with enough fuel: they start at [s + 1], rise strictly, leave no gap
    and end at the last line. *)
Lemma range_loop_spec (fuel : nat) (T M st s : Z) :
  1 <= st <= M -> 0 <= s < T -> T - s <= Z.of_nat fuel ->
  exists e rest,
    range_loop fuel T M st s = Some ((s + 1, e) :: rest) /\
    Forall (fun r => s + 1 <= fst r <= snd r /\ snd r <= T) ((s + 1, e) :: rest) /\
    StronglySorted Z.lt (map fst ((s + 1, e) :: rest)) /\
    (forall n, s + 1 <= n <= T -> exists r, In r ((s + 1, e) :: rest) /\ fst r <= n <= snd r) /\
    snd (List.last rest (s + 1, e)) = T.
Proof.
  intros Hst. revert s. induction fuel as [|fuel IH]; intros s Hs Hfuel; [lia|].
  simpl. destruct (Z.ltb_spec s T) as [_|]; [| lia].
  destruct (Z.leb_spec T (Z.min T (s + M))) as [He|He].
  - exists (Z.min T (s + M)), []. repeat split; simpl; try lia.
    + repeat constructor; simpl; lia.
    + repeat constructor.
    + intros n Hn. exists (s + 1, Z.min T (s + M)). simpl. split; [tauto | lia].
  - destruct (IH (s + st)) as (e' & rest' & Hrun & Hall & Hsorted & Hcover & Hlast); try lia.
    rewrite Hrun. simpl.
    exists (Z.min T (s + M)), ((s + st + 1, e') :: rest'). repeat split.
    + constructor; [simpl; lia|].
      eapply List.Forall_impl; [| exact Hall]. simpl. intros r Hr. lia.
    + simpl. constructor; [exact Hsorted|].
      constructor; [simpl; lia|].
      apply List.Forall_forall. intros a Ha.
      apply in_map_iff in Ha. destruct Ha as (r & <- & Hr).
      rewrite List.Forall_forall in Hall. specialize (Hall r (or_intror Hr)). lia.
    + intros n Hn. destruct (Z.le_gt_cases n (s + M)) as [Hle|Hgt].
      * exists (s + 1, Z.min T (s + M)). simpl. split; [tauto | lia].
      * destruct (Hcover n) as (r & Hr & Hn'); [lia|].
        exists r. split; [right; exact Hr | exact Hn'].
    + rewrite last_cons. exact Hlast.
Qed.

Lemma chunk_loop_fuel_mono (fuel fuel' : nat) lines T M st s acc chunks :
  (fuel <= fuel')%nat ->
  chunk_loop fuel lines T M st s acc = Some chunks ->
  chunk_loop fuel' lines T M st s acc = Some chunks.
Proof.
  revert fuel' s acc. induction fuel as [|fuel IH]; intros fuel' s acc Hle; [discriminate|].
  destruct fuel' as [|fuel']; [lia|]. simpl.
  destruct (s <? T); [| tauto].
  destruct (T <=? Z.min T (s + M)); [tauto|].
  apply IH. lia.
Qed.

(** *** The window arithmetic *)

Lemma effective_overlap_bounds (max_lines overlap_lines : Z) :
  0 < max_lines -> 0 <= overlap_lines ->
  0 <= effective_overlap max_lines overlap_lines <= max_lines - 1.
Proof.
  intros HM HO. unfold effective_overlap. destruct (Z.ltb_spec 1 max_lines); lia.
Qed.

Lemma step_size_bounds (max_lines overlap_lines : Z) :
  0 < max_lines -> 0 <= overlap_lines ->
  1 <= step_size max_lines (effective_overlap max_lines overlap_lines) <= max_lines.
Proof.
  intros HM HO. pose proof (effective_overlap_bounds _ _ HM HO). unfold step_size. lia.
Qed.

(** *** The whole function *)

(** With valid arguments and a text that is not empty, fuel for one test
    per line is enough, and the chunks are those of [range_loop]. *)
Lemma chunk_file_text_fuel_ok (fuel : nat) (text : str) (max_lines overlap_lines : Z) :
  0 < max_lines -> 0 <= overlap_lines -> text <> [] ->
  (length (splitlines text) <= fuel)%nat ->
  exists chunks e rest,
    chunk_file_text_fuel fuel text max_lines overlap_lines = Some (Ok chunks) /\
    map range chunks = (1, e) :: rest /\
    range_loop fuel (Z.of_nat (length (splitlines text))) max_lines
      (step_size max_lines (effective_overlap max_lines overlap_lines)) 0
    = Some ((1, e) :: rest) /\
    Forall (fun c => id c = chunk_id (start_line (metadata c)) (end_line (metadata c))) chunks.
Proof.
  intros HM HO Htext Hfuel.
  pose proof (step_size_bounds _ _ HM HO) as Hstep.
  unfold chunk_file_text_fuel.
  destruct (Z.leb_spec max_lines 0); [lia|].
  destruct (Z.ltb_spec overlap_lines 0); [lia|].
  assert (Hlines : splitlines text <> []) by (now rewrite splitlines_nil).
  destruct (splitlines text) as [|l0 ls] eqn:El; [congruence|].
  set (lines := l0 :: ls) in *.
  set (T := Z.of_nat (length lines)) in *.
  set (st := step_size max_lines (effective_overlap max_lines overlap_lines)) in *.
  assert (HT : 0 < T) by (unfold T, lines; simpl; lia).
  destruct (range_loop_spec fuel T max_lines st 0) as (e & rest & Hrun & _); try lia.
  assert (Hranges := chunk_loop_ranges fuel lines max_lines st 0
                       ltac:(lia) ltac:(lia) ltac:(lia)).
  fold T in Hranges. rewrite Hrun in Hranges.
  destruct (chunk_loop fuel lines T max_lines st 0 []) as [chunks|] eqn:Eloop;
    [| discriminate Hranges].
  injection Hranges as Hranges.
  exists chunks, e, rest. repeat split; try assumption.
  eapply chunk_loop_ids; [| exact Eloop]. constructor.
Qed.

End ChunkerFacts.

Module ChunkerSpec.

Import PyFacts Chunker ChunkerFacts.

Lemma last_map_range (chunks : list Chunk) (d : Z * Z) :
  chunks <> [] ->
  exists c, last chunks = Some c /\ List.last (map range chunks) d = range c.
Proof.
  induction chunks as [|c chunks IH]; [congruence|]. intros _.
  destruct chunks as [|c' chunks].
  - exists c. split; reflexivity.
  - destruct IH as (c'' & Hlast & Hrange); [discriminate|].
    exists c''. split; [exact Hlast|].
    change (map range (c :: c' :: chunks)) with (range c :: map range (c' :: chunks)).
    rewrite last_cons. rewrite <- Hrange.
    change (map range (c' :: chunks)) with (range c' :: map range chunks).
    now rewrite !last_cons.
Qed.

Lemma ids_NoDup (chunks : list Chunk) :
  Forall (fun c => id c = chunk_id (start_line (metadata c)) (end_line (metadata c))) chunks ->
  Forall (fun c => 0 <= start_line (metadata c)) chunks ->
  StronglySorted Z.lt (map (fun c => start_line (metadata c)) chunks) ->
  NoDup (map id chunks).
Proof.
  induction chunks as [|c chunks IH]; intros Hid Hpos Hsorted; simpl; [constructor|].
  inversion Hid as [|? ? Hc Hid']; subst.
  inversion Hpos as [|? ? Hc0 Hpos']; subst.
  simpl in Hsorted. apply StronglySorted_inv in Hsorted. destruct Hsorted as [Hsorted Hlt].
  constructor; [| now apply IH].
  intros Hin. apply list_elem_of_fmap in Hin. destruct Hin as (c' & Heq & Hc').
  rewrite List.Forall_forall in Hlt.
  assert (Hlt' : start_line (metadata c) < start_line (metadata c')).
  { apply Hlt. apply (in_map (fun c => start_line (metadata c))). now apply list_elem_of_In. }
  rewrite Forall_forall in Hid', Hpos'.
  rewrite Hc, (Hid' _ Hc') in Heq.
  apply chunk_id_inj in Heq; [lia | assumption | now apply Hpos'].
Qed.

(** C2. For a text that is not empty and valid [max_lines], [overlap_lines],
    the line ranges of the chunks cover exactly the lines [1 .. total_lines],
    the last chunk ends at [total_lines], the chunks have strictly increasing
    [start_line] and pairwise distinct identifiers; the empty text yields the
    empty list. *)
Theorem chunk_ranges_cover_text (text : str) (max_lines overlap_lines : Z) :
  0 < max_lines -> 0 <= overlap_lines ->
  (text = [] -> chunk_file_text text max_lines overlap_lines = Some (Ok [])) /\
  (text <> [] ->
   exists chunks,
     chunk_file_text text max_lines overlap_lines = Some (Ok chunks) /\
     let total_lines := Z.of_nat (length (splitlines text)) in
     (forall n, 1 <= n <= total_lines <->
        exists c, c ∈ chunks /\ start_line (metadata c) <= n <= end_line (metadata c)) /\
     (exists c, last chunks = Some c /\ end_line (metadata c) = total_lines) /\
     StronglySorted Z.lt (map (fun c => start_line (metadata c)) chunks) /\
     NoDup (map id chunks)).
Proof.
  intros HM HO. split.
  - intros ->. unfold chunk_file_text, chunk_file_text_fuel.
    destruct (Z.leb_spec max_lines 0); [lia|].
    destruct (Z.ltb_spec overlap_lines 0); [lia|]. reflexivity.
  - intros Htext.
    destruct (chunk_file_text_fuel_ok (length (splitlines text)) text max_lines overlap_lines)
      as (chunks & e & rest & Hrun & Hmap & Hranges & Hids); try assumption; [lia|].
    exists chunks. split; [exact Hrun|]. intros T.
    assert (HT : 0 < T).
    { unfold T. destruct (splitlines text) eqn:E; [apply splitlines_nil in E; congruence|].
      simpl. lia. }
    pose proof (step_size_bounds _ _ HM HO) as Hstep.
    destruct (range_loop_spec (length (splitlines text)) T max_lines
                (step_size max_lines (effective_overlap max_lines overlap_lines)) 0)
      as (e' & rest' & Hrun' & Hall & Hsorted & Hcover & Hlast); try (unfold T; lia).
    fold T in Hranges. rewrite Hranges in Hrun'. injection Hrun' as <- <-.
    change (0 + 1) with 1 in *. rewrite <- Hmap in Hall, Hsorted, Hcover.
    assert (Hsorted' : StronglySorted Z.lt (map (fun c => start_line (metadata c)) chunks)).
    { rewrite map_map in Hsorted. exact Hsorted. }
    repeat split.
    + intros Hn. destruct (Hcover n Hn) as (r & Hr & Hnr).
      apply in_map_iff in Hr. destruct Hr as (c & <- & Hc).
      exists c. split; [now apply list_elem_of_In | exact Hnr].
    + destruct H as (c & Hc & Hn). rewrite List.Forall_forall in Hall.
      specialize (Hall (range c) (in_map range _ _ (proj1 (list_elem_of_In _ _) Hc))).
      simpl in Hall. lia.
    + destruct H as (c & Hc & Hn). rewrite List.Forall_forall in Hall.
      specialize (Hall (range c) (in_map range _ _ (proj1 (list_elem_of_In _ _) Hc))).
      simpl in Hall. lia.
    + destruct (last_map_range chunks (1, e)) as (c & Hc & Hlc).
      { intros ->. discriminate Hmap. }
      exists c. split; [exact Hc|].
      rewrite Hmap, last_cons in Hlc. rewrite Hlc in Hlast. exact Hlast.
    + exact Hsorted'.
    + apply ids_NoDup; [exact Hids | | exact Hsorted'].
      rewrite List.Forall_forall in Hall. apply List.Forall_forall. intros c Hc.
      specialize (Hall (range c) (in_map range _ _ Hc)). simpl in Hall. lia.
Qed.

(** A ten-line text cut into windows of four lines that overlap by one. *)
Lemma chunk_ranges_cover_text_witness :
  exists chunks,
    chunk_file_text (sample_text 10) 4 1 = Some (Ok chunks) /\
    let total_lines := Z.of_nat (length (splitlines (sample_text 10))) in
    (forall n, 1 <= n <= total_lines <->
       exists c, c ∈ chunks /\ start_line (metadata c) <= n <= end_line (metadata c)) /\
    (exists c, last chunks = Some c /\ end_line (metadata c) = total_lines) /\
    StronglySorted Z.lt (map (fun c => start_line (metadata c)) chunks) /\
    NoDup (map id chunks).
Proof.
  apply (chunk_ranges_cover_text (sample_text 10) 4 1); [lia | lia | discriminate].
Defined.

(** C3. A text of exactly 450 lines, cut with [max_lines = 200] and
    [overlap_lines = 20], gives exactly three chunks, with the line ranges
    (1,200), (181,380) and (361,450), in this order. *)
Theorem chunk_450_lines (text : str) :
  length (splitlines text) = 450%nat ->
  exists chunks,
    chunk_file_text text 200 20 = Some (Ok chunks) /\
    map range chunks = [(1, 200); (181, 380); (361, 450)].
Proof.
  intros Hlen.
  assert (Htext : text <> []).
  { intros ->. discriminate Hlen. }
  destruct (chunk_file_text_fuel_ok (length (splitlines text)) text 200 20)
    as (chunks & e & rest & Hrun & Hmap & Hranges & _); try lia; try assumption.
  exists chunks. split; [exact Hrun|].
  rewrite Hmap. rewrite Hlen in Hranges.
  vm_compute in Hranges. now injection Hranges as -> ->.
Qed.

(** The synthetic file of the module's demonstration has 450 lines. *)
Lemma chunk_450_lines_witness :
  exists chunks,
    chunk_file_text (sample_text 450) 200 20 = Some (Ok chunks) /\
    map range chunks = [(1, 200); (181, 380); (361, 450)].
Proof.
  apply (chunk_450_lines (sample_text 450)). vm_compute. reflexivity.
Defined.

(** C8. For valid [max_lines] and [overlap_lines] the effective overlap is
    [min(overlap_lines, max_lines - 1)] when [max_lines > 1] and [0]
    otherwise, hence smaller than the window; the step is at least [1]; and
    the loop ends: fuel for one test per line of the text is enough, and any
    larger amount gives the same result. *)
Theorem chunk_file_text_terminates (text : str) (max_lines overlap_lines : Z) :
  0 < max_lines -> 0 <= overlap_lines ->
  let overlap := effective_overlap max_lines overlap_lines in
  let step := step_size max_lines overlap in
  (1 < max_lines -> overlap = Z.min overlap_lines (max_lines - 1)) /\
  (max_lines = 1 -> overlap = 0) /\
  0 <= overlap < max_lines /\
  step = Z.max 1 (max_lines - overlap) /\
  1 <= step /\
  exists chunks,
    forall fuel, (length (splitlines text) <= fuel)%nat ->
      chunk_file_text_fuel fuel text max_lines overlap_lines = Some (Ok chunks).
Proof.
  intros HM HO overlap step.
  pose proof (effective_overlap_bounds _ _ HM HO) as Hov.
  pose proof (step_size_bounds _ _ HM HO) as Hst.
  fold overlap in Hov, Hst. fold step in Hst.
  repeat split; try lia.
  - intros H1. unfold overlap, effective_overlap. destruct (Z.ltb_spec 1 max_lines); lia.
  - destruct text as [|c text'] eqn:Etext.
    + exists []. intros fuel _. unfold chunk_file_text_fuel.
      destruct (Z.leb_spec max_lines 0); [lia|].
      destruct (Z.ltb_spec overlap_lines 0); [lia|]. reflexivity.
    + rewrite <- Etext.
      assert (Htext : text <> []) by (rewrite Etext; discriminate).
      destruct (chunk_file_text_fuel_ok (length (splitlines text)) text max_lines overlap_lines)
        as (chunks & _ & _ & Hrun & _); try assumption; [lia|].
      exists chunks. intros fuel Hfuel.
      revert Hrun. unfold chunk_file_text_fuel.
      destruct (max_lines <=? 0); [tauto|]. destruct (overlap_lines <? 0); [tauto|].
      destruct (splitlines text) as [|l0 ls]; [tauto|].
      match goal with |- context [chunk_loop _ ?l ?T ?M ?s 0 []] =>
        destruct (chunk_loop (length (l0 :: ls)) l T M s 0 []) as [cs|] eqn:E; [| intros; discriminate];
        intros [= <-]; now rewrite (chunk_loop_fuel_mono _ fuel _ _ _ _ _ _ _ Hfuel E)
      end.
Qed.

(** A window of two lines with an overlap request of five lines. *)
Lemma chunk_file_text_terminates_witness :
  exists chunks,
    forall fuel, (length (splitlines (sample_text 3)) <= fuel)%nat ->
      chunk_file_text_fuel fuel (sample_text 3) 2 5 = Some (Ok chunks).
Proof.
  apply (chunk_file_text_terminates (sample_text 3) 2 5); lia.
Defined.

End ChunkerSpec.

(** ** vector_store.py *)

Module VectorStoreFacts.

Import VectorStore.

Section Store.

Context {F : Type} {A : Arith F} {Meta : Type}.

Local Abbreviation Vector := (@Vector F).
Local Abbreviation StoredItem := (@StoredItem F Meta).
Local Abbreviation Store := (gmap str (list StoredItem)).
Local Abbreviation SearchResult := (@SearchResult F Meta).

Lemma length__normalize (v : Vector) : length (_normalize v) = length v.
Proof.
  unfold _normalize. destruct (is_zero (norm v)); [reflexivity | apply length_map].
Qed.



Lemma _cosine_similarity_same_length (a b : Vector) :
  length a = length b -> _cosine_similarity a b = Ok (cosine a b).
Proof.
  intros H. unfold _cosine_similarity, cosine.
  rewrite H, Nat.eqb_refl. simpl. now destruct (is_zero (norm a) || is_zero (norm b)).
Qed.

Lemma _cosine_similarity_mismatch (a b : Vector) :
  length a <> length b -> _cosine_similarity a b = Raise DimensionMismatch.
Proof.
  intros H. unfold _cosine_similarity.
  apply Nat.eqb_neq in H. now rewrite H.
Qed.

(** The only exception of [_cosine_similarity] is the dimension mismatch. *)
Lemma _cosine_similarity_cases (a b : Vector) :
  (length a = length b /\ _cosine_similarity a b = Ok (cosine a b)) \/
  (length a <> length b /\ _cosine_similarity a b = Raise DimensionMismatch).
Proof.
  destruct (Nat.eq_dec (length a) (length b)) as [H|H].
  - left. split; [exact H | now apply _cosine_similarity_same_length].
  - right. split; [exact H | now apply _cosine_similarity_mismatch].
Qed.

(** *** The loop of [search] *)

Lemma score_items_same_length (query : Vector) (items : list StoredItem) results :
  Forall (fun item : StoredItem => length item.1.2 = length query) items ->
  score_items query items results = Ok (results ++ map (scored query) items).
Proof.
  intros Hall. revert results.
  induction Hall as [|[[cid v] md] items Hv _ IH]; intros results; simpl.
  - now rewrite app_nil_r.
  - simpl in Hv. rewrite _cosine_similarity_same_length by congruence.
    rewrite IH, <- app_assoc. reflexivity.
Qed.

Lemma score_items_mismatch (query : Vector) (items : list StoredItem) results :
  Exists (fun item : StoredItem => length item.1.2 <> length query) items ->
  score_items query items results = Raise DimensionMismatch.
Proof.
  intros Hex. revert results.
  induction Hex as [[[cid v] md] items Hv | [[cid v] md] items _ IH]; intros results; simpl.
  - simpl in Hv. now rewrite _cosine_similarity_mismatch by congruence.
  - destruct (_cosine_similarity_cases query v) as [[_ ->] | [_ ->]]; [apply IH | reflexivity].
Qed.

(** *** The loop of [add_vectors] *)

Lemma normalize_items_ok (items acc : list StoredItem) :
  Forall (fun item : StoredItem => item.1.2 <> []) items ->
  normalize_items items acc
  = Ok (acc ++ map (fun item : StoredItem => (item.1.1, _normalize item.1.2, item.2)) items).
Proof.
  intros Hall. revert acc.
  induction Hall as [|[[cid v] md] items Hv _ IH]; intros acc; simpl.
  - now rewrite app_nil_r.
  - simpl in Hv. destruct v as [|x v]; [congruence|].
    rewrite IH, <- app_assoc. reflexivity.
Qed.

Lemma normalize_items_empty_vector (items acc : list StoredItem) :
  Exists (fun item : StoredItem => item.1.2 = []) items ->
  normalize_items items acc = Raise (ValueError msg_vector).
Proof.
  intros Hex. revert acc.
  induction Hex as [[[cid v] md] items Hv | [[cid v] md] items _ IH]; intros acc; simpl.
  - simpl in Hv. now subst v.
  - destruct v; [reflexivity | apply IH].
Qed.

(** *** [search] on a partition *)

Lemma search_unfold (data : Store) repo_id (query_vector : Vector) (k : Z) items :
  0 < k -> data !! repo_id = Some items ->
  search data repo_id query_vector k
  = match score_items (_normalize query_vector) items [] with
    | Raise e => match items with [] => Ok [] | _ => Raise e end
    | Ok results => Ok (firstn (Z.to_nat k) (sort_by_reverse score results))
    end.
Proof.
  intros Hk Hdata. unfold search. rewrite Hdata.
  destruct (Z.leb_spec k 0); [lia|].
  destruct items as [|item items]; [simpl; now rewrite firstn_nil|].
  now destruct (score_items _ _ _).
Qed.

(** *** Reachable stores *)


Lemma normalize_items_inv (items acc normalized : list StoredItem) :
  normalize_items items acc = Ok normalized ->
  Forall (fun item : StoredItem => item.1.2 <> []) items /\
  normalized = acc ++ map (fun item : StoredItem => (item.1.1, _normalize item.1.2, item.2)) items.
Proof.
  revert acc. induction items as [|[[cid v] md] items IH]; intros acc; simpl.
  - intros [= <-]. split; [constructor | now rewrite app_nil_r].
  - destruct v as [|x v]; [discriminate|]. intros H. apply IH in H. destruct H as [H1 ->].
    split; [constructor; [discriminate | exact H1] | now rewrite <- app_assoc].
Qed.

(** [add_vectors] with a [repo_id] that is not empty. *)
Lemma add_vectors_unfold (data : Store) (repo_id : str) (items : list StoredItem) :
  repo_id <> [] ->
  add_vectors data repo_id items
  = match items with
    | [] => (Ok tt, data)
    | _ =>
        match normalize_items items [] with
        | Raise e => (Raise e, data)
        | Ok normalized_items =>
            (Ok tt, <[repo_id := default [] (data !! repo_id) ++ normalized_items]> data)
        end
    end.
Proof.
  intros H. unfold add_vectors. destruct repo_id; [congruence | reflexivity].
Qed.



End Store.

End VectorStoreFacts.

Module VectorStoreSpec.

Import VectorStore VectorStoreFacts.

Section Store.

Context {F : Type} {A : Arith F} {Meta : Type}.

Local Abbreviation Vector := (@Vector F).
Local Abbreviation StoredItem := (@StoredItem F Meta).
Local Abbreviation Store := (gmap str (list StoredItem)).

(** C5. On a partition that holds a vector whose length differs from the
    length of the query, [search] with [k > 0] raises the dimension error and
    so returns no result at all; when all lengths agree it returns a list. *)
Theorem search_dimension_mismatch (data : Store) (repo_id : str) (items : list StoredItem)
    (query_vector : Vector) (k : Z) :
  0 < k -> data !! repo_id = Some items ->
  (Exists (fun item : StoredItem => length item.1.2 <> length query_vector) items ->
   search data repo_id query_vector k = Raise DimensionMismatch) /\
  (Forall (fun item : StoredItem => length item.1.2 = length query_vector) items ->
   exists results, search data repo_id query_vector k = Ok results).
Proof.
  intros Hk Hdata. rewrite (search_unfold _ _ _ _ _ Hk Hdata). split.
  - intros Hex. rewrite score_items_mismatch.
    + destruct items; [inversion Hex | reflexivity].
    + eapply List.Exists_impl; [| exact Hex]. intros item. now rewrite length__normalize.
  - intros Hall. rewrite score_items_same_length.
    + eexists. reflexivity.
    + eapply List.Forall_impl; [| exact Hall]. intros item. now rewrite length__normalize.
Qed.

(** C7. [add_vectors] raises exactly when [repo_id] is empty or some vector
    of [items] is empty, and then with an invalid-argument error and the
    store as it was; otherwise it succeeds, and with no items it succeeds
    without changing the store. *)
Theorem add_vectors_invalid_argument (data : Store) (repo_id : str) (items : list StoredItem) :
  ((repo_id = [] \/ Exists (fun item : StoredItem => item.1.2 = []) items) ->
   exists e, InvalidArgument e /\ add_vectors data repo_id items = (Raise e, data)) /\
  (~ (repo_id = [] \/ Exists (fun item : StoredItem => item.1.2 = []) items) ->
   exists data', add_vectors data repo_id items = (Ok tt, data')) /\
  (repo_id <> [] -> items = [] -> add_vectors data repo_id items = (Ok tt, data)) /\
  (forall e, (add_vectors data repo_id items).1 = Raise e ->
     (add_vectors data repo_id items).2 = data).
Proof.
  unfold add_vectors. repeat split.
  - intros [-> | Hex].
    + exists (ValueError msg_repo_id). split; [now left | reflexivity].
    + exists (ValueError (if repo_id is [] then msg_repo_id else msg_vector)).
      destruct repo_id as [|c repo_id]; [split; [now left | reflexivity]|].
      split; [now right|].
      destruct items as [|item items]; [inversion Hex|].
      now rewrite normalize_items_empty_vector.
  - intros Hnot. destruct repo_id as [|c repo_id]; [exfalso; apply Hnot; now left|].
    destruct items as [|item items]; [now eexists|].
    rewrite normalize_items_ok; [now eexists|].
    apply Forall_forall. intros it Hit Hnil. apply Hnot. right.
    apply Exists_exists. now exists it.
  - intros Hrepo ->. now destruct repo_id.
  - intros e. destruct repo_id as [|c repo_id]; [reflexivity|].
    destruct items as [|item items]; [reflexivity|].
    now destruct (normalize_items (item :: items) []).
Qed.


End Store.

End VectorStoreSpec.

(** ** The order of binary64 numbers *)

Module FloatOrder.

(** A key that orders the numbers as [<] does: class, then exponent, then
    mantissa. A NaN has no key; both zeros have the same key. *)
Definition ord (f : spec_float) : option (Z * Z * Z) :=
  match f with
  | S754_nan => None
  | S754_infinity true => Some (-2, 0, 0)
  | S754_infinity false => Some (2, 0, 0)
  | S754_zero _ => Some (0, 0, 0)
  | S754_finite true m e => Some (-1, - e, - Zpos m)
  | S754_finite false m e => Some (1, e, Zpos m)
  end.

Definition lex_lt (a b : Z * Z * Z) : Prop :=
  let '(c1, e1, m1) := a in
  let '(c2, e2, m2) := b in
  c1 < c2 \/ (c1 = c2 /\ (e1 < e2 \/ (e1 = e2 /\ m1 < m2))).

Ltac ord_cases :=
  first
    [ split; [discriminate | intros (a & b & Ha & Hb & Hlt); try discriminate;
                              injection Ha as <-; injection Hb as <-; simpl in Hlt; lia]
    | split; [intros _; do 2 eexists; repeat split; simpl; lia | reflexivity] ].

Lemma SFltb_ord (f1 f2 : spec_float) :
  SFltb f1 f2 = true <->
  exists a b, ord f1 = Some a /\ ord f2 = Some b /\ lex_lt a b.
Proof.
  unfold SFltb.
  destruct f1 as [s1|s1| |s1 m1 e1], f2 as [s2|s2| |s2 m2 e2]; simpl;
    try destruct s1; try destruct s2; simpl; try ord_cases.
  all: rewrite ?Pos.compare_cont_spec; simpl.
  all: destruct (Z.compare_spec e1 e2); destruct (Pos.compare_spec m1 m2); simpl; ord_cases.
Qed.

Lemma SFeqb_ord (f1 f2 : spec_float) :
  SFeqb f1 f2 = true <-> exists a, ord f1 = Some a /\ ord f2 = Some a.
Proof.
  unfold SFeqb.
  destruct f1 as [s1|s1| |s1 m1 e1], f2 as [s2|s2| |s2 m2 e2]; simpl;
    try destruct s1; try destruct s2; simpl;
    try (split; [discriminate | intros (a & Ha & Hb); congruence]);
    try (split; [intros _; eexists; split; reflexivity | reflexivity]).
  all: rewrite ?Pos.compare_cont_spec; simpl.
  all: destruct (Z.compare_spec e1 e2); destruct (Pos.compare_spec m1 m2); simpl;
    try (split; [discriminate | intros (a & Ha & Hb); injection Ha as <-; injection Hb; lia]);
    try (subst; split; [intros _; eexists; split; reflexivity | reflexivity]).
Qed.

Lemma SFleb_ord (f1 f2 : spec_float) :
  SFleb f1 f2 = true <->
  exists a b, ord f1 = Some a /\ ord f2 = Some b /\ (lex_lt a b \/ a = b).
Proof.
  unfold SFleb.
  destruct f1 as [s1|s1| |s1 m1 e1], f2 as [s2|s2| |s2 m2 e2]; simpl;
    try destruct s1; try destruct s2; simpl.
  all: rewrite ?Pos.compare_cont_spec; simpl.
  all: try (destruct (Z.compare_spec e1 e2); destruct (Pos.compare_spec m1 m2); simpl).
  all: first
    [ split; [discriminate |];
      intros (a & b & Ha & Hb & Hle); try discriminate;
      injection Ha as <-; injection Hb as <-;
      (destruct Hle as [Hlt | Heq];
       [simpl in Hlt; lia | discriminate Heq || (injection Heq; lia)])
    | subst; split; [intros _ | reflexivity];
      do 2 eexists; split; [reflexivity | split; [reflexivity |]];
      simpl; first [left; lia | right; reflexivity] ].
Qed.

(** The key of a primitive float. *)
Definition key (x : float) : option (Z * Z * Z) := ord (Prim2SF x).

Lemma ltb_key (x y : float) :
  PrimFloat.ltb x y = true <-> exists a b, key x = Some a /\ key y = Some b /\ lex_lt a b.
Proof. rewrite FloatAxioms.ltb_spec. apply SFltb_ord. Qed.

Lemma eqb_key (x y : float) :
  PrimFloat.eqb x y = true <-> exists a, key x = Some a /\ key y = Some a.
Proof. rewrite FloatAxioms.eqb_spec. apply SFeqb_ord. Qed.

Lemma leb_key (x y : float) :
  PrimFloat.leb x y = true <->
  exists a b, key x = Some a /\ key y = Some b /\ (lex_lt a b \/ a = b).
Proof. rewrite FloatAxioms.leb_spec. apply SFleb_ord. Qed.

(** [x != x] singles out the NaNs. *)
Lemma is_nan_key (x : float) : PrimFloat.is_nan x = false <-> exists a, key x = Some a.
Proof.
  unfold PrimFloat.is_nan. rewrite negb_false_iff, eqb_key.
  split; intros (a & Ha); [| exists a; split]; try tauto. exists a. tauto.
Qed.

Lemma lex_lt_cases (a b : Z * Z * Z) : lex_lt a b \/ a = b \/ lex_lt b a.
Proof.
  destruct a as [[c1 e1] m1], b as [[c2 e2] m2]. unfold lex_lt.
  destruct (Z.lt_total c1 c2) as [?|[?|?]]; try lia;
  destruct (Z.lt_total e1 e2) as [?|[?|?]]; try lia;
  destruct (Z.lt_total m1 m2) as [?|[?|?]]; try lia.
  right. left. congruence.
Qed.

Lemma lex_lt_asym (a b : Z * Z * Z) : lex_lt a b -> ~ lex_lt b a.
Proof. destruct a as [[c1 e1] m1], b as [[c2 e2] m2]. unfold lex_lt. lia. Qed.

Lemma lex_lt_irrefl (a : Z * Z * Z) : ~ lex_lt a a.
Proof. destruct a as [[c1 e1] m1]. unfold lex_lt. lia. Qed.

Lemma lex_lt_trans (a b c : Z * Z * Z) : lex_lt a b -> lex_lt b c -> lex_lt a c.
Proof.
  destruct a as [[c1 e1] m1], b as [[c2 e2] m2], c as [[c3 e3] m3]. unfold lex_lt. lia.
Qed.

Lemma ltb_asym (x y : float) : PrimFloat.ltb x y = true -> PrimFloat.ltb y x = false.
Proof.
  intros H. apply not_true_is_false. intros H'.
  apply ltb_key in H, H'.
  destruct H as (a & b & Ha & Hb & Hlt), H' as (b' & a' & Hb' & Ha' & Hlt').
  assert (a' = a) by congruence. assert (b' = b) by congruence. subst.
  now apply (lex_lt_asym a b).
Qed.

Lemma ltb_trans (x y z : float) :
  PrimFloat.ltb x y = true -> PrimFloat.ltb y z = true -> PrimFloat.ltb x z = true.
Proof.
  intros H H'. apply ltb_key in H, H'. apply ltb_key.
  destruct H as (a & b & Ha & Hb & Hlt), H' as (b' & c & Hb' & Hc & Hlt').
  assert (b' = b) by congruence. subst.
  exists a, c. repeat split; try assumption. now apply (lex_lt_trans a b c).
Qed.

(** Among numbers, [not (x < y)] is [y <= x]. *)
Lemma ltb_false_leb (x y : float) :
  PrimFloat.is_nan x = false -> PrimFloat.is_nan y = false ->
  PrimFloat.ltb x y = false <-> PrimFloat.leb y x = true.
Proof.
  intros Hx Hy. apply is_nan_key in Hx, Hy. destruct Hx as (a & Ha), Hy as (b & Hb).
  rewrite <- not_true_iff_false, ltb_key, leb_key. split.
  - intros H. exists b, a. repeat split; try assumption.
    destruct (lex_lt_cases a b) as [Hlt | [-> | Hlt]]; [| tauto | tauto].
    exfalso. apply H. now exists a, b.
  - intros (b' & a' & Hb' & Ha' & Hle) (a'' & b'' & Ha'' & Hb'' & Hlt).
    assert (a' = a) by congruence. assert (b' = b) by congruence.
    assert (a'' = a) by congruence. assert (b'' = b) by congruence. subst.
    destruct Hle as [Hlt' | ->].
    + now apply (lex_lt_asym a b).
    + now apply (lex_lt_irrefl a).
Qed.

Lemma leb_trans (x y z : float) :
  PrimFloat.leb x y = true -> PrimFloat.leb y z = true -> PrimFloat.leb x z = true.
Proof.
  intros H H'. apply leb_key in H, H'. apply leb_key.
  destruct H as (a & b & Ha & Hb & Hle), H' as (b' & c & Hb' & Hc & Hle').
  assert (b' = b) by congruence. subst.
  exists a, c. repeat split; try assumption.
  destruct Hle as [Hlt | ->], Hle' as [Hlt' | ->]; try tauto.
  left. now apply (lex_lt_trans a b c).
Qed.

(** Among numbers, [x == y] says that neither is less than the other. *)
Lemma eqb_ltb (x y : float) :
  PrimFloat.is_nan x = false -> PrimFloat.is_nan y = false ->
  PrimFloat.eqb x y = negb (PrimFloat.ltb x y) && negb (PrimFloat.ltb y x).
Proof.
  intros Hx Hy. apply is_nan_key in Hx, Hy. destruct Hx as (a & Ha), Hy as (b & Hb).
  apply eq_true_iff_eq. rewrite andb_true_iff, !negb_true_iff, <- !not_true_iff_false.
  rewrite eqb_key, !ltb_key. split.
  - intros (c & Hc & Hc'). assert (a = c) by congruence. assert (b = c) by congruence. subst.
    split; intros (a' & b' & Ha' & Hb' & Hlt);
      assert (a' = c) by congruence; assert (b' = c) by congruence; subst;
      now apply (lex_lt_irrefl c).
  - intros [H1 H2]. destruct (lex_lt_cases a b) as [Hlt | [-> | Hlt]].
    + exfalso. apply H1. now exists a, b.
    + now exists b.
    + exfalso. apply H2. now exists b, a.
Qed.

End FloatOrder.

(** ** Sorting by key *)

Module SortFacts.

Import VectorStore.

Section Sort.

Context {F : Type} {A : Arith F} {X : Type} (key : X -> F).

(** What the sort needs of [<]. *)
Hypothesis lt_asym : forall x y : F, lt x y = true -> lt y x = false.
Hypothesis lt_trans : forall x y z : F, lt x y = true -> lt y z = true -> lt x z = true.

(** [b], which stands behind [a], is not less than [a]. *)
Definition ascending (a b : X) : Prop := lt (key b) (key a) = false.

(** [b], which stands behind [a], is not greater than [a]. *)
Definition descending (a b : X) : Prop := lt (key a) (key b) = false.

Lemma insert_by_perm (x : X) (l : list X) : Permutation (insert_by key x l) (x :: l).
Proof.
  induction l as [|y l IH]; simpl; [reflexivity|].
  destruct (lt (key x) (key y)); [reflexivity|].
  rewrite IH. apply perm_swap.
Qed.

Lemma fold_insert_perm (l acc : list X) :
  Permutation (fold_left (fun sorted x => insert_by key x sorted) l acc) (acc ++ l).
Proof.
  revert acc. induction l as [|x l IH]; intros acc; simpl.
  - now rewrite app_nil_r.
  - rewrite IH, insert_by_perm. simpl. apply Permutation_middle.
Qed.

Lemma sort_by_perm (l : list X) : Permutation (sort_by key l) l.
Proof. apply (fold_insert_perm l []). Qed.

Lemma sort_by_reverse_perm (l : list X) : Permutation (sort_by_reverse key l) l.
Proof.
  unfold sort_by_reverse. now rewrite <- Permutation_rev, sort_by_perm, <- Permutation_rev.
Qed.

Lemma insert_by_sorted (x : X) (l : list X) :
  StronglySorted ascending l -> StronglySorted ascending (insert_by key x l).
Proof.
  induction 1 as [|y l Hl IH Hy]; simpl; [repeat constructor|].
  destruct (lt (key x) (key y)) eqn:Hxy.
  - constructor; [now constructor|].
    constructor; [now apply lt_asym|].
    eapply List.Forall_impl; [| exact Hy]. intros z Hz. unfold ascending in *.
    destruct (lt (key z) (key x)) eqn:Hzx; [| reflexivity].
    rewrite (lt_trans _ _ _ Hzx Hxy) in Hz. discriminate.
  - constructor; [exact IH|].
    rewrite (insert_by_perm x l). constructor; assumption.
Qed.

Lemma fold_insert_sorted (l acc : list X) :
  StronglySorted ascending acc ->
  StronglySorted ascending (fold_left (fun sorted x => insert_by key x sorted) l acc).
Proof.
  revert acc. induction l as [|x l IH]; intros acc Hacc; simpl; [exact Hacc|].
  apply IH. now apply insert_by_sorted.
Qed.

Lemma sort_by_sorted (l : list X) : StronglySorted ascending (sort_by key l).
Proof. apply fold_insert_sorted. constructor. Qed.

Lemma StronglySorted_app (R : X -> X -> Prop) (l1 l2 : list X) :
  StronglySorted R l1 -> StronglySorted R l2 ->
  (forall a b, In a l1 -> In b l2 -> R a b) ->
  StronglySorted R (l1 ++ l2).
Proof.
  induction 1 as [|x l1 Hl1 IH Hx]; intros Hl2 Hcross; simpl; [exact Hl2|].
  constructor.
  - apply IH; [exact Hl2|]. intros a b Ha Hb. apply Hcross; [now right | exact Hb].
  - apply List.Forall_app. split; [exact Hx|].
    apply List.Forall_forall. intros b Hb. apply Hcross; [now left | exact Hb].
Qed.

Lemma StronglySorted_rev (R : X -> X -> Prop) (l : list X) :
  StronglySorted R l -> StronglySorted (fun a b => R b a) (rev l).
Proof.
  induction 1 as [|x l Hl IH Hx]; simpl; [constructor|].
  apply StronglySorted_app; [exact IH | repeat constructor |].
  intros a b Ha [<- | []]. apply in_rev in Ha.
  rewrite List.Forall_forall in Hx. now apply Hx.
Qed.

Lemma StronglySorted_firstn (R : X -> X -> Prop) (n : nat) (l : list X) :
  StronglySorted R l -> StronglySorted R (firstn n l).
Proof.
  intros Hl. revert n. induction Hl as [|x l Hl IH Hx]; intros [|n]; simpl; try constructor.
  - apply IH.
  - rewrite List.Forall_forall in *. intros y Hy. apply Hx.
    rewrite <- (firstn_skipn n l). apply in_or_app. now left.
Qed.

(** The keys of the sorted list never increase. *)
Lemma sort_by_reverse_sorted (l : list X) : StronglySorted descending (sort_by_reverse key l).
Proof.
  unfold sort_by_reverse.
  apply (StronglySorted_rev ascending). apply sort_by_sorted.
Qed.

(** *** Stability *)

(** [comparable] holds of the keys that [<] orders totally up to ties; for
    [float] keys these are the numbers, as opposed to the NaNs. *)
Variable comparable : F -> Prop.
Hypothesis lt_negtrans : forall x y z : F,
  comparable x -> comparable y -> comparable z ->
  lt x y = false -> lt y z = false -> lt x z = false.

(** The element [e] has a key that ties with [s]. *)
Definition tie (s : F) (e : X) : bool := negb (lt (key e) s) && negb (lt s (key e)).

Lemma tie_spec (s : F) (e : X) : tie s e = true <-> lt (key e) s = false /\ lt s (key e) = false.
Proof. unfold tie. rewrite andb_true_iff, !negb_true_iff. tauto. Qed.

Lemma insert_by_filter (s : F) (x : X) (l : list X) :
  comparable s -> comparable (key x) -> Forall (fun e => comparable (key e)) l ->
  StronglySorted ascending l ->
  List.filter (tie s) (insert_by key x l) = List.filter (tie s) l ++ List.filter (tie s) [x].
Proof.
  intros Hs Hx Hall Hsorted. induction Hsorted as [|y l Hl IH Hy]; [reflexivity|].
  inversion Hall as [|? ? Hcy Hall']; subst. specialize (IH Hall').
  cbn [insert_by]. destruct (lt (key x) (key y)) eqn:Hxy.
  - destruct (tie s x) eqn:Hsx.
    + (* no element from [y] on ties with [s] *)
      assert (Hnone : Forall (fun z => tie s z = false) (y :: l)).
      { apply tie_spec in Hsx. destruct Hsx as [Hxs Hsx].
        assert (Hy' : Forall (ascending y) (y :: l)).
        { constructor; [| exact Hy]. unfold ascending.
          destruct (lt (key y) (key y)) eqn:E; [| reflexivity].
          now rewrite (lt_asym _ _ E) in E. }
        rewrite Forall_forall in Hy', Hall. apply Forall_forall. intros z Hz.
        apply not_true_is_false. intros Hsz. apply tie_spec in Hsz. destruct Hsz as [Hzs Hsz].
        assert (Hcz : comparable (key z)) by (now apply Hall).
        pose proof (lt_negtrans _ _ _ Hx Hs Hcz Hxs Hsz) as Hxz.
        pose proof (lt_negtrans _ _ _ Hx Hcz Hcy Hxz (Hy' z Hz)) as Hxy'.
        congruence. }
      assert (Hnil : List.filter (tie s) (y :: l) = []).
      { clear -Hnone. induction Hnone as [|z l' Hz _ IH']; [reflexivity|].
        cbn [List.filter]. now rewrite Hz. }
      cbn [List.filter] in *. rewrite Hsx. now rewrite Hnil.
    + cbn [List.filter]. rewrite Hsx. now rewrite app_nil_r.
  - cbn [List.filter]. rewrite IH. destruct (tie s y); reflexivity.
Qed.

Lemma fold_insert_filter (s : F) (l acc : list X) :
  comparable s -> Forall (fun e => comparable (key e)) l ->
  Forall (fun e => comparable (key e)) acc -> StronglySorted ascending acc ->
  List.filter (tie s) (fold_left (fun sorted x => insert_by key x sorted) l acc)
  = List.filter (tie s) acc ++ List.filter (tie s) l.
Proof.
  intros Hs Hl. revert acc. induction Hl as [|x l Hx Hl IH]; intros acc Hacc Hsorted.
  - simpl. now rewrite app_nil_r.
  - cbn [fold_left]. rewrite IH.
    + rewrite insert_by_filter by assumption. rewrite <- app_assoc.
      cbn [List.filter]. now destruct (tie s x).
    + rewrite (insert_by_perm x acc). now constructor.
    + now apply insert_by_sorted.
Qed.

(** The sort is stable: the elements whose keys tie with [s] keep the
    order they had. *)
Lemma sort_by_stable (s : F) (l : list X) :
  comparable s -> Forall (fun e => comparable (key e)) l ->
  List.filter (tie s) (sort_by key l) = List.filter (tie s) l.
Proof.
  intros Hs Hl. unfold sort_by. rewrite fold_insert_filter; try assumption; constructor.
Qed.

Lemma sort_by_reverse_stable (s : F) (l : list X) :
  comparable s -> Forall (fun e => comparable (key e)) l ->
  List.filter (tie s) (sort_by_reverse key l) = List.filter (tie s) l.
Proof.
  intros Hs Hl. unfold sort_by_reverse.
  rewrite List.filter_rev, sort_by_stable, <- List.filter_rev, rev_involutive; try assumption.
  - reflexivity.
  - now rewrite <- Permutation_rev.
Qed.

End Sort.

(** The part of a list before position [n] holds of the elements that
    satisfy [p] an initial part of those of the whole list. *)
Lemma filter_firstn {X} (p : X -> bool) (n : nat) (l : list X) :
  exists m, List.filter p (firstn n l) = firstn m (List.filter p l).
Proof.
  revert n. induction l as [|x l IH]; intros [|n]; simpl; try (now exists 0%nat).
  destruct (IH n) as [m Hm]. destruct (p x).
  - exists (S m). simpl. now rewrite Hm.
  - now exists m.
Qed.

End SortFacts.

(** ** Ranking of search results *)

Module VectorStoreRanking.

Import VectorStore VectorStoreFacts SortFacts FloatOrder.

(** A [float] that is a number. *)
Definition number (x : float) : Prop := PrimFloat.is_nan x = false.

Lemma float_lt_asym (x y : float) : lt x y = true -> lt y x = false.
Proof. apply ltb_asym. Qed.

Lemma float_lt_trans (x y z : float) : lt x y = true -> lt y z = true -> lt x z = true.
Proof. apply ltb_trans. Qed.

Lemma float_lt_negtrans (x y z : float) :
  number x -> number y -> number z ->
  lt x y = false -> lt y z = false -> lt x z = false.
Proof.
  unfold number. simpl. intros Hx Hy Hz Hxy Hyz.
  apply ltb_false_leb in Hxy, Hyz; try assumption.
  apply ltb_false_leb; try assumption. now apply (leb_trans z y x).
Qed.

Section Ranking.

Context {Meta : Type}.

Local Abbreviation StoredItem := (@StoredItem float Meta).
Local Abbreviation SearchResult := (@SearchResult float Meta).

Lemma tie_eqb (s : float) (r : SearchResult) :
  number s -> number (score r) -> tie score s r = PrimFloat.eqb (score r) s.
Proof.
  intros Hs Hr. unfold tie. simpl. now rewrite eqb_ltb.
Qed.

Lemma filter_ext_Forall {X} (p q : X -> bool) (Q : X -> Prop) (l : list X) :
  (forall x, Q x -> p x = q x) -> Forall Q l -> List.filter p l = List.filter q l.
Proof.
  intros Hpq. induction 1 as [|x l Hx _ IH]; [reflexivity|].
  simpl. now rewrite IH, (Hpq x Hx).
Qed.

Lemma eqb_nan_r (x s : float) : PrimFloat.is_nan s = true -> PrimFloat.eqb x s = false.
Proof.
  intros Hs. apply not_true_is_false. intros H. apply eqb_key in H.
  destruct H as (a & _ & Ha).
  assert (Hn : PrimFloat.is_nan s = false) by (apply is_nan_key; now exists a).
  congruence.
Qed.

Lemma filter_false {X} (p : X -> bool) (l : list X) :
  (forall x, p x = false) -> List.filter p l = [].
Proof.
  intros Hp. induction l as [|x l IH]; [reflexivity|]. simpl. now rewrite Hp.
Qed.

Lemma StronglySorted_impl {X} (R R' : X -> X -> Prop) (Q : X -> Prop) (l : list X) :
  (forall a b, Q a -> Q b -> R a b -> R' a b) ->
  Forall Q l -> StronglySorted R l -> StronglySorted R' l.
Proof.
  intros HR HQ Hl. induction Hl as [|x l Hl IH Hx]; [constructor|].
  inversion HQ as [|? ? Hqx HQ']; subst.
  constructor; [now apply IH|].
  rewrite Forall_forall in HQ'. rewrite List.Forall_forall in *.
  intros y Hy. apply HR; [assumption | apply HQ'; now apply list_elem_of_In | now apply Hx].
Qed.

(** C6, as amended. [search] returns the empty list when [k <= 0] and when
    the partition is unknown. On a partition of [n] items whose vectors have
    the length of the query, with [k > 0] and no score a NaN, it returns
    [min(k, n)] results, taken from the results of the partition, in which no
    score is followed by a greater one, and in which the results of equal
    score stand in the order of insertion. *)
Theorem search_ranking (data : gmap str (list StoredItem)) (repo_id : str)
    (query_vector : Vector) (k : Z) :
  (k <= 0 -> search data repo_id query_vector k = Ok []) /\
  (data !! repo_id = None -> search data repo_id query_vector k = Ok []) /\
  (forall items, 0 < k -> data !! repo_id = Some items ->
     Forall (fun item : StoredItem => length item.1.2 = length query_vector) items ->
     let results := map (scored (_normalize query_vector)) items in
     Forall (fun r => number (score r)) results ->
     exists out,
       search data repo_id query_vector k = Ok out /\
       length out = Nat.min (Z.to_nat k) (length items) /\
       (exists rest, Permutation (out ++ rest) results) /\
       StronglySorted (fun a b => PrimFloat.leb (score b) (score a) = true) out /\
       (forall s, exists m,
          List.filter (fun r => PrimFloat.eqb (score r) s) out
          = firstn m (List.filter (fun r => PrimFloat.eqb (score r) s) results))).
Proof.
  split; [| split].
  - intros Hk. unfold search. destruct (Z.leb_spec k 0); [reflexivity | lia].
  - intros Hdata. unfold search. rewrite Hdata. now destruct (k <=? 0).
  - intros items Hk Hdata Hlen results Hnum.
    rewrite (search_unfold _ _ _ _ _ Hk Hdata).
    rewrite score_items_same_length
      by (eapply List.Forall_impl; [| exact Hlen]; intros item; now rewrite length__normalize).
    rewrite app_nil_l. fold results.
    set (sorted := sort_by_reverse score results).
    assert (Hperm : Permutation sorted results)
      by apply sort_by_reverse_perm.
    assert (Hnum' : Forall (fun r => number (score r)) sorted)
      by (now rewrite Hperm).
    exists (firstn (Z.to_nat k) sorted). repeat split.
    + rewrite length_firstn, (Permutation_length Hperm). unfold results.
      now rewrite length_map.
    + exists (skipn (Z.to_nat k) sorted). now rewrite firstn_skipn.
    + apply (StronglySorted_impl (descending score) _ (fun r => number (score r))).
      * intros a b Ha Hb Hab. unfold descending in Hab. simpl in Hab.
        now apply ltb_false_leb in Hab.
      * rewrite <- (firstn_skipn (Z.to_nat k) sorted) in Hnum'.
        now apply Forall_app in Hnum'.
      * apply StronglySorted_firstn.
        apply (sort_by_reverse_sorted score float_lt_asym float_lt_trans).
    + intros s. destruct (PrimFloat.is_nan s) eqn:Hs.
      * exists 0%nat. rewrite filter_false; [reflexivity|].
        intros r. now apply eqb_nan_r.
      * destruct (filter_firstn (fun r => PrimFloat.eqb (score r) s) (Z.to_nat k) sorted)
          as [m Hm].
        exists m. rewrite Hm. f_equal.
        rewrite <- (filter_ext_Forall (tie score s) _ _ sorted (fun r => tie_eqb s r Hs) Hnum').
        rewrite <- (filter_ext_Forall (tie score s) _ _ results (fun r => tie_eqb s r Hs) Hnum).
        apply (sort_by_reverse_stable score float_lt_asym float_lt_trans number
                 float_lt_negtrans); assumption.
Qed.

End Ranking.

End VectorStoreRanking.

(** ** Normalization in exact arithmetic *)

Module ExactFacts.

Import VectorStore.

Local Open Scope R_scope.














End ExactFacts.

(** ** The self-match *)

Module VectorStoreSelfMatch.

Import VectorStore VectorStoreFacts.

Section Store.

Context {F : Type} {A : Arith F} {Meta : Type}.

Local Abbreviation StoredItem := (@StoredItem F Meta).

Lemma sort_by_reverse_singleton {X} (key : X -> F) (x : X) : sort_by_reverse key [x] = [x].
Proof. reflexivity. Qed.


End Store.


End VectorStoreSelfMatch.

(** ** The store on concrete vectors *)

Module Examples.

Import VectorStore.

(** The metadata of the examples: a description. *)
Definition Meta : Type := str.

(** The store of the module's demonstration. *)
Definition repo_A : gmap str (list (@StoredItem float Meta)) :=
  (add_vectors init (lit "repo-A")
     [ (lit "chunk-1", [1; 0]%float, lit "unit x");
       (lit "chunk-2", [0; 1]%float, lit "unit y");
       (lit "chunk-3", [1; 1]%float, lit "diag") ]).2.

(** The demonstration: the diagonal ranks first, with score 1.0, and the two
    unit vectors tie and stay in the order of insertion. *)
Lemma search_repo_A :
  search repo_A (lit "repo-A") [1; 1]%float 3
  = Ok [ {| id := lit "chunk-3"; score := 1%float; metadata := lit "diag" |};
         {| id := lit "chunk-1"; score := 0x1.6a09e667f3bcdp-1%float;
            metadata := lit "unit x" |};
         {| id := lit "chunk-2"; score := 0x1.6a09e667f3bcdp-1%float;
            metadata := lit "unit y" |} ].
Proof. vm_compute. reflexivity. Qed.





(** A query of three components against the vectors of two components. *)
Lemma search_dimension_mismatch_witness :
  (Exists (fun item : @StoredItem float Meta => length item.1.2 <> length [1; 1; 1]%float)
     [ (lit "chunk-1", [1; 0]%float, lit "unit x");
       (lit "chunk-2", [0; 1]%float, lit "unit y");
       (lit "chunk-3", _normalize [1; 1]%float, lit "diag") ] ->
   search repo_A (lit "repo-A") [1; 1; 1]%float 3 = Raise DimensionMismatch) /\
  (Forall (fun item : @StoredItem float Meta => length item.1.2 = length [1; 1; 1]%float)
     [ (lit "chunk-1", [1; 0]%float, lit "unit x");
       (lit "chunk-2", [0; 1]%float, lit "unit y");
       (lit "chunk-3", _normalize [1; 1]%float, lit "diag") ] ->
   exists results, search repo_A (lit "repo-A") [1; 1; 1]%float 3 = Ok results).
Proof.
  apply (VectorStoreSpec.search_dimension_mismatch repo_A (lit "repo-A")).
  - lia.
  - vm_compute. reflexivity.
Defined.



(** A store with a vector that holds an infinity: its stored copy is a NaN. *)
Definition with_infinity : gmap str (list (@StoredItem float Meta)) :=
  (add_vectors init (lit "repo")
     [ (lit "a", [infinity], lit "first"); (lit "b", [1%float], lit "second") ]).2.

(** C6 fails as stated: the score of a vector that holds a NaN is a NaN,
    which is not greater than or equal to any score and so cannot stand in
    front of one in a non-increasing sequence. *)
Lemma search_ranking_counterexample :
  with_infinity !! lit "repo"
  = Some [ (lit "a", [nan], lit "first"); (lit "b", [1%float], lit "second") ] /\
  search with_infinity (lit "repo") [1%float] 2
  = Ok [ {| id := lit "a"; score := nan; metadata := lit "first" |};
         {| id := lit "b"; score := 1%float; metadata := lit "second" |} ] /\
  PrimFloat.leb 1 nan = false /\ PrimFloat.leb nan 1 = false.
Proof. vm_compute. repeat split. Qed.

(** The partition of the demonstration as it is stored. *)
Definition repo_A_items : list (@StoredItem float Meta) :=
  [ (lit "chunk-1", [1; 0]%float, lit "unit x");
    (lit "chunk-2", [0; 1]%float, lit "unit y");
    (lit "chunk-3", _normalize [1; 1]%float, lit "diag") ].

(** The ranking of the demonstration, with room for two results. *)
Lemma search_ranking_witness :
  let results := map (scored (_normalize [1; 1]%float)) repo_A_items in
  exists out,
    search repo_A (lit "repo-A") [1; 1]%float 2 = Ok out /\
    length out = Nat.min (Z.to_nat 2) (length repo_A_items) /\
    (exists rest, Permutation (out ++ rest) results) /\
    StronglySorted (fun a b => PrimFloat.leb (score b) (score a) = true) out /\
    (forall s, exists m,
       List.filter (fun r => PrimFloat.eqb (score r) s) out
       = firstn m (List.filter (fun r => PrimFloat.eqb (score r) s) results)).
Proof.
  apply (proj2 (proj2 (VectorStoreRanking.search_ranking repo_A (lit "repo-A")
                         [1; 1]%float 2)) repo_A_items).
  - lia.
  - vm_compute. reflexivity.
  - repeat constructor.
  - repeat constructor.
Defined.

(** *** A zero vector that the caller changes afterwards *)

(** Two list objects of the caller: the vector [0.0, 0.0] at address 0 and
    the query [1.0, 0.0] at address 1. *)
Definition caller_heap : list (list float) := [ [0; 0]%float; [1; 0]%float ].

(** C9 at an all-zero vector. [add_vectors] stores the very list that the
    caller passes: the partition refers to address 0 and no list is created.
    A search for [1.0, 0.0] scores the item 0.0; after the caller has set the
    first element of its list to 1.0, the same search scores it 1.0. *)
Lemma zero_vector_is_shared :
  let '(outcome, heap, data) :=
    VectorStoreObjects.add_vectors caller_heap ∅ (lit "repo")
      [ (lit "id", 0%nat, lit "m") ] in
  outcome = Ok tt /\
  heap = caller_heap /\
  data !! lit "repo" = Some [ (lit "id", 0%nat, lit "m") ] /\
  VectorStoreObjects.search heap data (lit "repo") 1%nat 1
  = Ok [ {| id := lit "id"; score := 0%float; metadata := lit "m" |} ] /\
  VectorStoreObjects.search (VectorStoreObjects.mutate heap 0%nat [1; 0]%float)
    data (lit "repo") 1%nat 1
  = Ok [ {| id := lit "id"; score := 1%float; metadata := lit "m" |} ].
Proof. vm_compute. repeat split. Qed.

End Examples.

(** ** Normalization of stored and embedded vectors *)

Module Normalization.

Import VectorStore VectorStoreFacts FloatOrder.

(** *** Zero vectors in binary64 *)

(** [x == 0] holds of [0.0] and [-0.0] only. *)
Lemma float_is_zero (x : float) :
  is_zero x = true -> x = PrimFloat.zero \/ x = PrimFloat.neg_zero.
Proof.
  simpl. intros H. apply eqb_key in H. destruct H as (a & Hx & H0).
  vm_compute in H0. injection H0 as <-.
  unfold key in Hx. rewrite <- (SF2Prim_Prim2SF x).
  destruct (Prim2SF x) as [[|]| [|] | |[|] m e]; try discriminate Hx.
  - right. reflexivity.
  - left. reflexivity.
Qed.

Lemma float_square_zero (x : float) : is_zero x = true -> mul x x = PrimFloat.zero.
Proof. intros H. destruct (float_is_zero x H) as [-> | ->]; reflexivity. Qed.

Lemma float_norm_zero (v : list float) :
  Forall (fun x => is_zero x = true) v -> norm v = PrimFloat.zero.
Proof.
  intros Hv. unfold norm, Builtin.sum.
  assert (Hsum : fold_left add (map (fun x => mul x x) v) zero = PrimFloat.zero).
  { change zero with PrimFloat.zero.
    induction Hv as [|x v Hx _ IH]; [reflexivity|].
    cbn [map fold_left]. rewrite (float_square_zero x Hx).
    replace (add PrimFloat.zero PrimFloat.zero) with PrimFloat.zero by reflexivity.
    exact IH. }
  rewrite Hsum. reflexivity.
Qed.

(** A vector of zeros is kept as it is. *)
Lemma float__normalize_zero (v : list float) :
  Forall (fun x => is_zero x = true) v -> _normalize v = v.
Proof.
  intros Hv. unfold _normalize. now rewrite (float_norm_zero v Hv).
Qed.

(** *** The invariant of the store *)

Section Store.

Context {F : Type} {A : Arith F} {Meta : Type}.

Local Abbreviation StoredItem := (@StoredItem F Meta).




End Store.

End Normalization.

(** ** embeddings.py *)

Module EmbeddingsFacts.

Import Embeddings.

(** A code point that UTF-8 cannot encode. *)
Definition surrogate (c : N) : Prop := (55296 <= c <= 57343)%N.

Lemma surrogate_dec (c : N) : surrogate c \/ ~ surrogate c.
Proof. unfold surrogate. lia. Qed.

Lemma encode_char_ok (c : N) : ~ surrogate c -> exists bytes, encode_char c = Ok bytes.
Proof.
  unfold surrogate, encode_char. intros Hc.
  destruct (N.ltb_spec c 128); [now eexists|].
  destruct (N.ltb_spec c 2048); [now eexists|].
  destruct (N.leb_spec 55296 c); destruct (N.leb_spec c 57343); simpl; try lia;
    destruct (N.ltb_spec c 65536); now eexists.
Qed.

Lemma encode_char_surrogate (c : N) : surrogate c -> encode_char c = Raise UnicodeEncodeError.
Proof.
  unfold surrogate, encode_char. intros Hc.
  destruct (N.ltb_spec c 128); [lia|].
  destruct (N.ltb_spec c 2048); [lia|].
  destruct (N.leb_spec 55296 c); destruct (N.leb_spec c 57343); simpl; try lia. reflexivity.
Qed.

(** A string encodes unless it holds a surrogate. *)
Lemma encode_ok (s : str) : Forall (fun c => ~ surrogate c) s -> exists bytes, encode s = Ok bytes.
Proof.
  induction 1 as [|c s Hc _ [bytes' IH]]; simpl; [now eexists|].
  destruct (encode_char_ok c Hc) as [bytes ->]. rewrite IH. now eexists.
Qed.

Lemma encode_surrogate (s : str) : Exists surrogate s -> encode s = Raise UnicodeEncodeError.
Proof.
  induction 1 as [c s Hc | c s _ IH]; simpl.
  - now rewrite encode_char_surrogate.
  - destruct (encode_char c) as [bytes|e] eqn:E.
    + now rewrite IH.
    + destruct (surrogate_dec c) as [Hc|Hc].
      * rewrite encode_char_surrogate in E by assumption. congruence.
      * destruct (encode_char_ok c Hc) as [b Hb]. congruence.
Qed.

Lemma lit_not_surrogate (s : string) : Forall (fun c => ~ surrogate c) (lit s).
Proof.
  unfold lit. apply List.Forall_forall. intros c Hc.
  apply in_map_iff in Hc. destruct Hc as (a & <- & _).
  pose proof (N_ascii_bounded a). unfold surrogate. lia.
Qed.

Lemma str_of_int_not_surrogate (n : Z) : Forall (fun c => ~ surrogate c) (str_of_int n).
Proof. apply lit_not_surrogate. Qed.

Section Embed.

Context {F : Type} {A : Arith F}.

Variable sha256_hexdigest : list N -> str.

(** A SHA-256 digest is 32 bytes, 64 hexadecimal digits. *)
Hypothesis sha256_hexdigest_length : forall data, length (sha256_hexdigest data) = 64%nat.

(** *** [_hex_stream] *)

Lemma hex_stream_loop_ok (fuel : nat) (text : str) (total_chars : Z) (hex_data : str)
    (counter : Z) :
  Forall (fun c => ~ surrogate c) text ->
  1 + Z.max 0 (total_chars - Z.of_nat (length hex_data)) <= Z.of_nat fuel ->
  exists more,
    hex_stream_loop sha256_hexdigest fuel text total_chars hex_data counter
    = Some (Ok (hex_data ++ more)) /\
    total_chars <= Z.of_nat (length (hex_data ++ more)).
Proof.
  intros Htext. revert hex_data counter.
  induction fuel as [|fuel IH]; intros hex_data counter Hfuel; [lia|].
  cbn [hex_stream_loop].
  destruct (Z.ltb_spec (Z.of_nat (length hex_data)) total_chars) as [Hlt|Hge].
  - destruct (encode_ok (text ++ lit ":" ++ str_of_int counter)) as [bytes ->].
    { apply Forall_app. split; [exact Htext|].
      apply Forall_app. split; [apply lit_not_surrogate | apply str_of_int_not_surrogate]. }
    destruct (IH (hex_data ++ sha256_hexdigest bytes) (counter + 1)) as (more & Hrun & Hlen).
    { rewrite length_app, sha256_hexdigest_length. lia. }
    exists (sha256_hexdigest bytes ++ more). rewrite app_assoc. split; assumption.
  - exists []. rewrite app_nil_r. split; [reflexivity | lia].
Qed.

(** For a text without surrogates and [total_chars >= 0], [_hex_stream]
    returns exactly [total_chars] characters. *)
Lemma _hex_stream_ok (fuel : nat) (text : str) (total_chars : Z) :
  Forall (fun c => ~ surrogate c) text -> 0 <= total_chars ->
  1 + total_chars <= Z.of_nat fuel ->
  exists hex_data,
    _hex_stream sha256_hexdigest fuel text total_chars = Some (Ok hex_data) /\
    Z.of_nat (length hex_data) = total_chars.
Proof.
  intros Htext Htotal Hfuel. unfold _hex_stream.
  destruct (encode_ok text Htext) as [bytes ->].
  destruct (hex_stream_loop_ok fuel text total_chars (sha256_hexdigest bytes) 1 Htext)
    as (more & -> & Hlen); [lia|].
  eexists. split; [reflexivity|].
  rewrite PyFacts.length_slice; lia.
Qed.

Lemma _hex_stream_surrogate (fuel : nat) (text : str) (total_chars : Z) :
  Exists surrogate text ->
  _hex_stream sha256_hexdigest fuel text total_chars = Some (Raise UnicodeEncodeError).
Proof.
  intros Htext. unfold _hex_stream. now rewrite (encode_surrogate text Htext).
Qed.

(** *** [embed_texts] *)

Lemma length_chunk_values (hex_data : str) (dim : Z) :
  Z.of_nat (length hex_data) = dim * 2 ->
  Z.of_nat (length (chunk_values (F := F) hex_data)) = dim.
Proof.
  revert dim. induction hex_data as [hex_data IH] using (induction_ltof1 _ (@length N)).
  unfold ltof in IH. intros dim Hlen.
  destruct hex_data as [|c1 [|c2 hex_data']]; cbn [chunk_values length] in *;
    rewrite ?Nat2Z.inj_succ in *; try lia.
  rewrite (IH hex_data' ltac:(simpl; lia) (dim - 1)); lia.
Qed.

Lemma length_embedded (v : Vector (F := F)) : length (_normalize v) = length v.
Proof. unfold _normalize. destruct (is_zero _); apply length_map. Qed.

Lemma embed_loop_ok (fuel : nat) (texts : list str) (dim : Z) (acc : list Vector) :
  Forall (fun text => Forall (fun c => ~ surrogate c) text) texts ->
  0 < dim -> 1 + dim * 2 <= Z.of_nat fuel ->
  exists vectors,
    embed_loop sha256_hexdigest fuel texts dim acc = Some (Ok (acc ++ vectors)) /\
    length vectors = length texts /\
    Forall (fun u => Z.of_nat (length u) = dim /\
                     exists raw, Z.of_nat (length raw) = dim /\ u = _normalize raw) vectors.
Proof.
  intros Htexts Hdim Hfuel. revert acc.
  induction Htexts as [|text texts Htext _ IH]; intros acc; simpl.
  - exists []. rewrite app_nil_r. repeat split. constructor.
  - destruct (_hex_stream_ok fuel text (dim * 2) Htext) as (hex_data & -> & Hlen); try lia.
    destruct (IH (acc ++ [_normalize (slice (chunk_values hex_data) 0 dim)]))
      as (vectors & -> & Hn & Hall).
    exists (_normalize (slice (chunk_values hex_data) 0 dim) :: vectors).
    rewrite <- app_assoc. repeat split; [simpl; lia|].
    assert (Hraw : Z.of_nat (length (slice (chunk_values (F := F) hex_data) 0 dim)) = dim).
    { rewrite PyFacts.length_slice; rewrite ?(length_chunk_values hex_data dim); lia. }
    constructor; [| exact Hall]. split.
    + now rewrite length_embedded.
    + eexists. split; [exact Hraw | reflexivity].
Qed.

Lemma embed_loop_surrogate (fuel : nat) (texts : list str) (dim : Z) (acc : list Vector) :
  Forall (fun text => Forall (fun c => ~ surrogate c) text \/ Exists surrogate text) texts ->
  Exists (fun text => Exists surrogate text) texts ->
  0 < dim -> 1 + dim * 2 <= Z.of_nat fuel ->
  embed_loop sha256_hexdigest fuel texts dim acc = Some (Raise UnicodeEncodeError).
Proof.
  intros Hall Hex Hdim Hfuel. revert acc.
  induction Hex as [text texts Htext | text texts _ IH]; intros acc; simpl.
  - now rewrite _hex_stream_surrogate.
  - inversion Hall as [|? ? [Hok | Hbad] Hall']; subst.
    + destruct (_hex_stream_ok fuel text (dim * 2) Hok) as (hex_data & -> & _); try lia.
      now apply IH.
    + now rewrite _hex_stream_surrogate.
Qed.

End Embed.

(** *** Normalization in exact arithmetic *)


End EmbeddingsFacts.

Module NormalizationSpec.

Import VectorStore Normalization.



End NormalizationSpec.

Module NormalizationExamples.

Import VectorStore Examples.




End NormalizationExamples.

(** ** chunker.py: the windows in closed form *)

Module ChunkerWindows.

Import PyFacts Chunker ChunkerFacts.

(** The chunk that holds the lines [a .. b] of [lines]. *)
Definition chunk_of_range (lines : list str) (r : Z * Z) : Chunk :=
  {| id := chunk_id r.1 r.2;
     text := join (lit (String (ascii_of_nat 10) EmptyString)) (slice lines (r.1 - 1) r.2);
     metadata := {| start_line := r.1; end_line := r.2 |} |}.

Lemma chunk_loop_chunks (fuel : nat) (lines : list str) (M st s : Z) :
  0 <= M -> 0 <= st -> 0 <= s ->
  chunk_loop fuel lines (Z.of_nat (length lines)) M st s []
  = option_map (map (chunk_of_range lines))
      (range_loop fuel (Z.of_nat (length lines)) M st s).
Proof.
  intros HM Hst. revert s. induction fuel as [|fuel IH]; intros s Hs; [reflexivity|].
  cbn [chunk_loop range_loop].
  set (T := Z.of_nat (length lines)) in *.
  destruct (Z.ltb_spec s T) as [HsT|HsT]; [| reflexivity].
  assert (Hlen : s + Z.of_nat (length (slice lines s (Z.min T (s + M)))) = Z.min T (s + M)).
  { rewrite length_slice; unfold T; lia. }
  assert (Hchunk :
    {| id := chunk_id (s + 1) (s + Z.of_nat (length (slice lines s (Z.min T (s + M)))));
       text := join (lit (String (ascii_of_nat 10) EmptyString))
                 (slice lines s (Z.min T (s + M)));
       metadata := {| start_line := s + 1;
                      end_line := s + Z.of_nat (length (slice lines s (Z.min T (s + M)))) |} |}
    = chunk_of_range lines (s + 1, Z.min T (s + M))).
  { unfold chunk_of_range. cbn [fst snd]. rewrite Hlen.
    now replace (s + 1 - 1) with s by lia. }
  rewrite app_nil_l, Hchunk.
  destruct (Z.leb_spec T (Z.min T (s + M))) as [He|He]; [reflexivity|].
  rewrite chunk_loop_acc, IH by lia.
  now destruct (range_loop fuel T M st (s + st)).
Qed.

(** The [i]-th window when the first one starts at line index [s]. *)
Definition window (T M st s : Z) (i : nat) : Z * Z :=
  (s + Z.of_nat i * st + 1, Z.min T (s + Z.of_nat i * st + M)).

(** The number of windows from line index [s] on. *)
Definition windows (T M st s : Z) : nat :=
  if T <=? s + M then 1%nat else S (Z.to_nat ((T - M - s + st - 1) / st)).

Lemma windows_step (T M st s : Z) :
  1 <= st -> s + M < T -> windows T M st s = S (windows T M st (s + st)).
Proof.
  intros Hst Hs. unfold windows.
  destruct (Z.leb_spec T (s + M)); [lia|].
  assert (Hdiv : (T - M - s + st - 1) / st = (T - M - (s + st) + st - 1) / st + 1).
  { rewrite <- Z.div_add by lia. f_equal. lia. }
  destruct (Z.leb_spec T (s + st + M)) as [Hle|Hgt].
  - assert ((T - M - s + st - 1) / st = 1); [| lia].
    symmetry. apply (Z.div_unique _ _ 1 (T - M - s - 1)); [left; lia | lia].
  - assert (Hq : 0 <= (T - M - (s + st) + st - 1) / st) by (apply Z.div_pos; lia).
    rewrite Hdiv, Z2Nat.inj_add by lia.
    change (Z.to_nat 1) with 1%nat. lia.
Qed.

Lemma range_loop_closed (fuel : nat) (T M st s : Z) :
  1 <= st <= M -> 0 <= s < T -> T - s <= Z.of_nat fuel ->
  range_loop fuel T M st s = Some (map (window T M st s) (seq 0 (windows T M st s))).
Proof.
  intros Hst. revert s. induction fuel as [|fuel IH]; intros s Hs Hfuel; [lia|].
  cbn [range_loop]. destruct (Z.ltb_spec s T) as [_|]; [| lia].
  destruct (Z.leb_spec T (Z.min T (s + M))) as [He|He].
  - unfold windows. destruct (Z.leb_spec T (s + M)); [| lia].
    cbn [seq map]. unfold window. repeat f_equal; lia.
  - rewrite windows_step by lia.
    rewrite IH by lia. cbn [option_map seq map]. do 2 f_equal.
    + unfold window. f_equal; lia.
    + rewrite <- seq_shift, map_map. apply map_ext. intros i. unfold window.
      f_equal; lia.
Qed.

(** The chunks of a text in closed form. *)
Lemma chunk_file_text_closed (text : str) (max_lines overlap_lines : Z) :
  0 < max_lines -> 0 <= overlap_lines -> text <> [] ->
  let lines := splitlines text in
  let T := Z.of_nat (length lines) in
  let step := step_size max_lines (effective_overlap max_lines overlap_lines) in
  chunk_file_text text max_lines overlap_lines
  = Some (Ok (map (fun i => chunk_of_range lines (window T max_lines step 0 i))
                (seq 0 (windows T max_lines step 0)))).
Proof.
  intros HM HO Htext. cbv zeta.
  pose proof (step_size_bounds _ _ HM HO) as Hstep.
  unfold chunk_file_text, chunk_file_text_fuel.
  destruct (Z.leb_spec max_lines 0); [lia|].
  destruct (Z.ltb_spec overlap_lines 0); [lia|].
  assert (Hlines : splitlines text <> []) by (now rewrite splitlines_nil).
  destruct (splitlines text) as [|l0 ls]; [congruence|].
  set (lines := l0 :: ls) in *.
  assert (HT : 0 < Z.of_nat (length lines)) by (unfold lines; simpl; lia).
  rewrite chunk_loop_chunks by lia.
  rewrite range_loop_closed by lia.
  cbn [option_map]. now rewrite map_map.
Qed.

End ChunkerWindows.

Module ChunkerExtras.

Import PyFacts Chunker ChunkerFacts ChunkerWindows.

Lemma window_bounds (T M st : Z) (i : nat) :
  1 <= st <= M -> 0 < T -> (i < windows T M st 0)%nat ->
  Z.of_nat i * st < T.
Proof.
  intros Hst HT Hi. unfold windows in Hi.
  destruct (Z.leb_spec T (0 + M)); [assert (i = 0%nat) by lia; subst; simpl; lia|].
  assert (Hq : 0 <= (T - M - 0 + st - 1) / st) by (apply Z.div_pos; lia).
  assert (Hi' : Z.of_nat i <= (T - M - 0 + st - 1) / st) by lia.
  pose proof (Z.mul_div_le (T - M - 0 + st - 1) st ltac:(lia)) as Hmul.
  nia.
Qed.

Lemma window_full (T M st : Z) (i : nat) :
  1 <= st <= M -> (S i < windows T M st 0)%nat ->
  Z.of_nat i * st + M < T.
Proof.
  intros Hst Hi. unfold windows in Hi.
  destruct (Z.leb_spec T (0 + M)); [lia|].
  assert (Hq : 0 <= (T - M - 0 + st - 1) / st) by (apply Z.div_pos; lia).
  assert (Hi' : Z.of_nat i + 1 <= (T - M - 0 + st - 1) / st) by lia.
  pose proof (Z.mul_div_le (T - M - 0 + st - 1) st ltac:(lia)) as Hmul.
  nia.
Qed.

(** What [chunk_file_text] returns for valid arguments. *)
Lemma chunk_file_text_cases (text : str) (max_lines overlap_lines : Z) (chunks : list Chunk) :
  0 < max_lines -> 0 <= overlap_lines ->
  chunk_file_text text max_lines overlap_lines = Some (Ok chunks) ->
  (text = [] /\ chunks = []) \/
  (0 < Z.of_nat (length (splitlines text)) /\
   chunks = map (fun i => chunk_of_range (splitlines text)
                   (window (Z.of_nat (length (splitlines text))) max_lines
                      (step_size max_lines (effective_overlap max_lines overlap_lines)) 0 i))
              (seq 0 (windows (Z.of_nat (length (splitlines text))) max_lines
                        (step_size max_lines (effective_overlap max_lines overlap_lines)) 0))).
Proof.
  intros HM HO Hrun. destruct text as [|c text'] eqn:Etext.
  - left. split; [reflexivity|]. revert Hrun. unfold chunk_file_text, chunk_file_text_fuel.
    destruct (Z.leb_spec max_lines 0); [lia|].
    destruct (Z.ltb_spec overlap_lines 0); [lia|]. simpl. congruence.
  - right. rewrite <- Etext in *.
    assert (Htext : text <> []) by (rewrite Etext; discriminate).
    rewrite (chunk_file_text_closed text max_lines overlap_lines HM HO Htext) in Hrun.
    injection Hrun as <-. split; [| reflexivity].
    destruct (splitlines text) eqn:E; [apply splitlines_nil in E; congruence | simpl; lia].
Qed.

(** X1. Invalid arguments: [max_lines <= 0] raises the error about
    [max_lines], whatever the text and the overlap are, and a negative
    [overlap_lines] with a valid [max_lines] raises the error about the
    overlap; neither needs a single iteration. *)
Theorem chunk_file_text_invalid_arguments (fuel : nat) (text : str)
    (max_lines overlap_lines : Z) :
  (max_lines <= 0 ->
   chunk_file_text_fuel fuel text max_lines overlap_lines
   = Some (Raise (ValueError msg_max_lines))) /\
  (0 < max_lines -> overlap_lines < 0 ->
   chunk_file_text_fuel fuel text max_lines overlap_lines
   = Some (Raise (ValueError msg_overlap))).
Proof.
  unfold chunk_file_text_fuel. split.
  - intros H. destruct (Z.leb_spec max_lines 0); [reflexivity | lia].
  - intros H H'. destruct (Z.leb_spec max_lines 0); [lia|].
    destruct (Z.ltb_spec overlap_lines 0); [reflexivity | lia].
Qed.

Lemma chunks_hold_their_range (text : str) (max_lines overlap_lines : Z)
    (chunks : list Chunk) :
  0 < max_lines -> 0 <= overlap_lines ->
  chunk_file_text text max_lines overlap_lines = Some (Ok chunks) ->
  Forall (fun c =>
            let s := start_line (metadata c) in
            let e := end_line (metadata c) in
            1 <= s <= e /\ e <= Z.of_nat (length (splitlines text)) /\
            e - s + 1 <= max_lines /\
            id c = chunk_id s e /\
            Chunker.text c
            = join (lit (String (ascii_of_nat 10) EmptyString))
                (slice (splitlines text) (s - 1) e)) chunks.
Proof.
  intros HM HO Hrun.
  pose proof (step_size_bounds _ _ HM HO) as Hstep.
  destruct (chunk_file_text_cases _ _ _ _ HM HO Hrun) as [[_ ->] | [HT ->]]; [constructor|].
  apply List.Forall_forall. intros c Hc.
  apply in_map_iff in Hc. destruct Hc as (i & <- & Hi). apply in_seq in Hi.
  pose proof (window_bounds _ max_lines _ i Hstep HT ltac:(lia)) as Hw.
  unfold chunk_of_range, window. cbn [id Chunker.text metadata start_line end_line fst snd].
  repeat split; try lia.
Qed.

(** X2. Every chunk holds the lines of its range and nothing else: its
    range lies within the text and spans at most [max_lines] lines, its
    identifier is the encoding of the range, and its text is the lines
    [start_line .. end_line] of the text joined by newlines. *)
Theorem chunk_contents (text : str) (max_lines overlap_lines : Z) (chunks : list Chunk) :
  0 < max_lines -> 0 <= overlap_lines ->
  chunk_file_text text max_lines overlap_lines = Some (Ok chunks) ->
  Forall (fun c =>
            let s := start_line (metadata c) in
            let e := end_line (metadata c) in
            1 <= s <= e /\ e <= Z.of_nat (length (splitlines text)) /\
            e - s + 1 <= max_lines /\
            id c = chunk_id s e /\
            Chunker.text c
            = join (lit (String (ascii_of_nat 10) EmptyString))
                (slice (splitlines text) (s - 1) e)) chunks.
Proof. apply chunks_hold_their_range. Qed.

(** A text of five lines in windows of two lines. *)
Lemma chunk_contents_witness :
  exists chunks,
    chunk_file_text (sample_text 5) 2 0 = Some (Ok chunks) /\
    Forall (fun c =>
              let s := start_line (metadata c) in
              let e := end_line (metadata c) in
              1 <= s <= e /\ e <= Z.of_nat (length (splitlines (sample_text 5))) /\
              e - s + 1 <= 2 /\
              id c = chunk_id s e /\
              Chunker.text c
              = join (lit (String (ascii_of_nat 10) EmptyString))
                  (slice (splitlines (sample_text 5)) (s - 1) e)) chunks.
Proof.
  eexists. split; [vm_compute; reflexivity|].
  apply (chunk_contents (sample_text 5) 2 0); [lia | lia | vm_compute; reflexivity].
Defined.

(** X3. Two consecutive chunks: the first one is a full window of
    [max_lines] lines, the second one starts one step later, and the lines
    they share are exactly as many as the effective overlap. *)
Theorem consecutive_chunks (text : str) (max_lines overlap_lines : Z) (chunks : list Chunk)
    (i : nat) (c c' : Chunk) :
  0 < max_lines -> 0 <= overlap_lines ->
  chunk_file_text text max_lines overlap_lines = Some (Ok chunks) ->
  chunks !! i = Some c -> chunks !! S i = Some c' ->
  let overlap := effective_overlap max_lines overlap_lines in
  end_line (metadata c) - start_line (metadata c) + 1 = max_lines /\
  start_line (metadata c') = start_line (metadata c) + step_size max_lines overlap /\
  end_line (metadata c) - start_line (metadata c') + 1 = overlap.
Proof.
  intros HM HO Hrun Hc Hc' overlap.
  pose proof (step_size_bounds _ _ HM HO) as Hstep.
  pose proof (effective_overlap_bounds _ _ HM HO) as Hov.
  fold overlap in Hstep, Hov.
  assert (Hst : step_size max_lines overlap = max_lines - overlap)
    by (unfold step_size; lia).
  destruct (chunk_file_text_cases _ _ _ _ HM HO Hrun) as [[_ ->] | [HT ->]];
    [discriminate Hc|].
  fold overlap in Hc, Hc'.
  rewrite list_lookup_fmap in Hc, Hc'.
  destruct (seq 0 _ !! i) as [j|] eqn:Ej; [| discriminate Hc].
  destruct (seq 0 _ !! S i) as [j'|] eqn:Ej'; [| discriminate Hc'].
  apply lookup_seq in Ej, Ej'. destruct Ej as [-> Hi], Ej' as [-> Hi'].
  injection Hc as <-. injection Hc' as <-.
  pose proof (window_full _ max_lines _ i Hstep Hi') as Hfull.
  unfold chunk_of_range, window. cbn [metadata start_line end_line fst snd].
  cbn [Nat.add] in *. rewrite Nat2Z.inj_succ. lia.
Qed.

(** The first two chunks of a text of ten lines, four lines to a window
    and one line of overlap. *)
Lemma consecutive_chunks_witness :
  exists chunks c c',
    chunk_file_text (sample_text 10) 4 1 = Some (Ok chunks) /\
    chunks !! 0%nat = Some c /\ chunks !! 1%nat = Some c' /\
    end_line (metadata c) - start_line (metadata c) + 1 = 4 /\
    start_line (metadata c') = start_line (metadata c) + step_size 4 (effective_overlap 4 1) /\
    end_line (metadata c) - start_line (metadata c') + 1 = effective_overlap 4 1.
Proof.
  do 3 eexists. split; [vm_compute; reflexivity|].
  split; [reflexivity|]. split; [reflexivity|].
  eapply (consecutive_chunks (sample_text 10) 4 1 _ 0);
    [lia | lia | vm_compute; reflexivity | reflexivity | reflexivity].
Defined.

(** X4. A text that fits into one window gives exactly one chunk, which
    covers the lines 1 to [total_lines] and holds all lines of the text. *)
Theorem single_chunk (text : str) (max_lines overlap_lines : Z) :
  0 < max_lines -> 0 <= overlap_lines -> text <> [] ->
  Z.of_nat (length (splitlines text)) <= max_lines ->
  exists c,
    chunk_file_text text max_lines overlap_lines = Some (Ok [c]) /\
    range c = (1, Z.of_nat (length (splitlines text))) /\
    Chunker.text c = join (lit (String (ascii_of_nat 10) EmptyString)) (splitlines text).
Proof.
  intros HM HO Htext Hfit.
  rewrite (chunk_file_text_closed text max_lines overlap_lines HM HO Htext). cbv zeta.
  unfold windows. destruct (Z.leb_spec (Z.of_nat (length (splitlines text))) (0 + max_lines));
    [| lia].
  eexists. split; [reflexivity|].
  unfold chunk_of_range, window, range. cbn [metadata start_line end_line fst snd Chunker.text].
  change (Z.of_nat 0) with 0. rewrite Z.mul_0_l. change (0 + 0 + 1) with 1.
  replace (Z.min _ _) with (Z.of_nat (length (splitlines text))) by lia.
  split; [reflexivity|]. f_equal.
  unfold slice. change (Z.to_nat (1 - 1)) with 0%nat.
  cbn [skipn]. apply firstn_all2. lia.
Qed.

(** Three lines in a window that has room for five. *)
Lemma single_chunk_witness :
  exists c,
    chunk_file_text (sample_text 3) 5 2 = Some (Ok [c]) /\
    range c = (1, Z.of_nat (length (splitlines (sample_text 3)))) /\
    Chunker.text c
    = join (lit (String (ascii_of_nat 10) EmptyString)) (splitlines (sample_text 3)).
Proof.
  apply (single_chunk (sample_text 3) 5 2); [lia | lia | discriminate | vm_compute; discriminate].
Defined.

(** X5. The number of chunks: one when the text fits into a window, and
    otherwise one more than the number of steps it takes for a window to
    reach the last line, [ceil((total_lines - max_lines) / step)]. *)
Theorem chunk_count (text : str) (max_lines overlap_lines : Z) (chunks : list Chunk) :
  0 < max_lines -> 0 <= overlap_lines -> text <> [] ->
  chunk_file_text text max_lines overlap_lines = Some (Ok chunks) ->
  let total_lines := Z.of_nat (length (splitlines text)) in
  let step := step_size max_lines (effective_overlap max_lines overlap_lines) in
  Z.of_nat (length chunks)
  = if total_lines <=? max_lines then 1
    else 1 + (total_lines - max_lines + step - 1) / step.
Proof.
  intros HM HO Htext Hrun total_lines step.
  pose proof (step_size_bounds _ _ HM HO) as Hstep. fold step in Hstep.
  rewrite (chunk_file_text_closed text max_lines overlap_lines HM HO Htext) in Hrun.
  injection Hrun as <-. rewrite length_map, length_seq.
  fold total_lines step. unfold windows.
  replace (0 + max_lines) with max_lines by lia.
  destruct (Z.leb_spec total_lines max_lines); [reflexivity|].
  rewrite Nat2Z.inj_succ, Z2Nat.id.
  - replace (total_lines - max_lines - 0) with (total_lines - max_lines) by lia. lia.
  - apply Z.div_pos; lia.
Qed.

(** The 450 lines of the demonstration take three chunks. *)
Lemma chunk_count_witness :
  exists chunks,
    chunk_file_text (sample_text 450) 200 20 = Some (Ok chunks) /\
    Z.of_nat (length chunks) = 3.
Proof.
  eexists. split; [vm_compute; reflexivity|].
  apply (chunk_count (sample_text 450) 200 20);
    [lia | lia | discriminate | vm_compute; reflexivity].
Defined.

(** X6. The identifier of a chunk encodes its line range: two chunks with
    the same identifier, be they of different texts and different calls,
    have the same [start_line] and the same [end_line]. *)
Theorem chunk_id_determines_range (text text' : str)
    (max_lines overlap_lines max_lines' overlap_lines' : Z)
    (chunks chunks' : list Chunk) (c c' : Chunk) :
  0 < max_lines -> 0 <= overlap_lines -> 0 < max_lines' -> 0 <= overlap_lines' ->
  chunk_file_text text max_lines overlap_lines = Some (Ok chunks) ->
  chunk_file_text text' max_lines' overlap_lines' = Some (Ok chunks') ->
  c ∈ chunks -> c' ∈ chunks' -> id c = id c' -> range c = range c'.
Proof.
  intros HM HO HM' HO' Hrun Hrun' Hc Hc' Hid.
  pose proof (chunks_hold_their_range _ _ _ _ HM HO Hrun) as Hall.
  pose proof (chunks_hold_their_range _ _ _ _ HM' HO' Hrun') as Hall'.
  rewrite Forall_forall in Hall, Hall'.
  destruct (Hall c Hc) as (Hs & _ & _ & Hidc & _).
  destruct (Hall' c' Hc') as (Hs' & _ & _ & Hidc' & _).
  rewrite Hidc, Hidc' in Hid. apply chunk_id_inj in Hid; try lia.
  unfold range. now destruct Hid as [-> ->].
Qed.

(** The first chunks of two different texts: both are [chunk-1-2]. *)
Lemma chunk_id_determines_range_witness :
  range (chunk_of_range (splitlines (sample_text 5)) (1, 2))
  = range (chunk_of_range (splitlines (sample_text 3)) (1, 2)).
Proof.
  apply (chunk_id_determines_range (sample_text 5) (sample_text 3) 2 0 2 1
           (map (chunk_of_range (splitlines (sample_text 5))) [(1, 2); (3, 4); (5, 5)])
           (map (chunk_of_range (splitlines (sample_text 3))) [(1, 2); (2, 3)])).
  - lia.
  - lia.
  - lia.
  - lia.
  - vm_compute. reflexivity.
  - vm_compute. reflexivity.
  - apply list_elem_of_here.
  - apply list_elem_of_here.
  - vm_compute. reflexivity.
Defined.

End ChunkerExtras.

(** ** vector_store.py: further properties *)

Module VectorStoreExtras.

Import VectorStore VectorStoreFacts SortFacts.

Section Store.

Context {F : Type} {A : Arith F} {Meta : Type}.

Local Abbreviation StoredItem := (@StoredItem F Meta).

(** The stored form of an item. *)
Definition normalized (item : StoredItem) : StoredItem :=
  (item.1.1, _normalize item.1.2, item.2).

(** X7. A valid call of [add_vectors] appends the normalized items, in the
    order of the input and without merging anything, to the partition of
    [repo_id], and leaves every other partition as it was. *)
Theorem add_vectors_appends (data : gmap str (list StoredItem)) (repo_id : str)
    (items : list StoredItem) :
  repo_id <> [] -> Forall (fun item : StoredItem => item.1.2 <> []) items ->
  (add_vectors data repo_id items).1 = Ok tt /\
  default [] ((add_vectors data repo_id items).2 !! repo_id)
  = default [] (data !! repo_id) ++ map normalized items /\
  (forall other, other <> repo_id ->
     (add_vectors data repo_id items).2 !! other = data !! other).
Proof.
  intros Hrepo Hitems. rewrite add_vectors_unfold by assumption.
  destruct items as [|item items].
  - repeat split. simpl. now rewrite app_nil_r.
  - rewrite normalize_items_ok by assumption. rewrite app_nil_l. cbn [fst snd].
    repeat split.
    + now rewrite lookup_insert_eq.
    + intros other Hother. now rewrite lookup_insert_ne by congruence.
Qed.

(** X8. The partitions do not interfere: whatever a call of [add_vectors]
    for one repository does, every search in another repository returns
    what it returned before. *)
Theorem search_other_repository (data : gmap str (list StoredItem)) (repo_id other : str)
    (items : list StoredItem) (query_vector : list F) (k : Z) :
  other <> repo_id ->
  search (add_vectors data repo_id items).2 other query_vector k
  = search data other query_vector k.
Proof.
  intros Hother.
  assert (Hlookup : (add_vectors data repo_id items).2 !! other = data !! other).
  { destruct (decide (repo_id = [])) as [->|Hrepo]; [reflexivity|].
    rewrite add_vectors_unfold by assumption.
    destruct items as [|item items]; [reflexivity|].
    destruct (normalize_items (item :: items) []); [| reflexivity].
    cbn [snd]. now rewrite lookup_insert_ne by congruence. }
  unfold search. now rewrite Hlookup.
Qed.

(** X9. With [k > 0] and vectors of the length of the query, [search]
    returns [min(k, n)] results, and each of them is the result of a stored
    item of its own: the returned list, with the results it leaves out, is a
    rearrangement of the results of the partition. *)
Theorem search_results_of_partition (data : gmap str (list StoredItem)) (repo_id : str)
    (items : list StoredItem) (query_vector : list F) (k : Z) :
  0 < k -> data !! repo_id = Some items ->
  Forall (fun item : StoredItem => length item.1.2 = length query_vector) items ->
  exists out rest,
    search data repo_id query_vector k = Ok out /\
    length out = Nat.min (Z.to_nat k) (length items) /\
    Permutation (out ++ rest) (map (scored (_normalize query_vector)) items).
Proof.
  intros Hk Hdata Hlen. rewrite (search_unfold _ _ _ _ _ Hk Hdata).
  rewrite score_items_same_length
    by (eapply List.Forall_impl; [| exact Hlen]; intros item; now rewrite length__normalize).
  rewrite app_nil_l.
  set (results := map (scored (_normalize query_vector)) items).
  exists (firstn (Z.to_nat k) (sort_by_reverse score results)),
         (skipn (Z.to_nat k) (sort_by_reverse score results)).
  split; [reflexivity|]. split.
  - rewrite length_firstn, (Permutation_length (sort_by_reverse_perm score results)).
    unfold results. now rewrite length_map.
  - rewrite firstn_skipn. apply sort_by_reverse_perm.
Qed.

(** X10. Asking for fewer results gives an initial part of the answer to
    asking for more: for [0 < k <= k'], [search(.., k)] is the first [k]
    results of [search(.., k')], and raises whenever that raises. *)
Theorem search_top_k_prefix (data : gmap str (list StoredItem)) (repo_id : str)
    (query_vector : list F) (k k' : Z) :
  0 < k <= k' ->
  match search data repo_id query_vector k' with
  | Ok out' => search data repo_id query_vector k = Ok (firstn (Z.to_nat k) out')
  | Raise e => search data repo_id query_vector k = Raise e
  end.
Proof.
  intros Hk. unfold search.
  destruct (Z.leb_spec k' 0); [lia|]. destruct (Z.leb_spec k 0); [lia|].
  destruct (data !! repo_id) as [[|item items]|]; try (now rewrite firstn_nil).
  destruct (score_items (_normalize query_vector) (item :: items) []); [| reflexivity].
  rewrite firstn_firstn. do 2 f_equal. lia.
Qed.

(** Every stored vector has [d] components. *)
Definition dimension (d : nat) (data : gmap str (list StoredItem)) : Prop :=
  forall repo_id items, data !! repo_id = Some items ->
    Forall (fun item : StoredItem => length item.1.2 = d) items.

(** X11. A store that is only given vectors of [d] components keeps holding
    vectors of [d] components only, and answers every query of [d]
    components without a dimension error. *)
Theorem dimension_preserved (d : nat) (data : gmap str (list StoredItem)) :
  dimension d data ->
  (forall repo_id items,
     Forall (fun item : StoredItem => length item.1.2 = d) items ->
     dimension d (add_vectors data repo_id items).2) /\
  (forall repo_id query_vector k,
     length query_vector = d ->
     exists out, search data repo_id query_vector k = Ok out).
Proof.
  intros Hdata. split.
  - intros repo_id items Hitems.
    destruct (decide (repo_id = [])) as [->|Hrepo]; [exact Hdata|].
    rewrite add_vectors_unfold by assumption.
    destruct items as [|item items]; [exact Hdata|].
    destruct (normalize_items (item :: items) []) as [normalized_items|e] eqn:E; [| exact Hdata].
    apply normalize_items_inv in E. destruct E as [_ ->]. rewrite app_nil_l. cbn [snd].
    intros r its Hr. destruct (decide (r = repo_id)) as [->|Hneq].
    + rewrite lookup_insert_eq in Hr. injection Hr as <-.
      apply Forall_app. split.
      * destruct (data !! repo_id) as [old|] eqn:Eold; simpl; [| constructor].
        now apply (Hdata _ _ Eold).
      * apply (proj2 (Forall_fmap
                 (fun it : StoredItem => (it.1.1, _normalize it.1.2, it.2))
                 (fun it : StoredItem => length it.1.2 = d) (item :: items))).
        eapply Forall_impl; [exact Hitems|].
        intros [[cid v] md] Hv. simpl in *. now rewrite length__normalize.
    + rewrite lookup_insert_ne in Hr by congruence. now apply (Hdata _ _ Hr).
  - intros repo_id query_vector k Hq.
    destruct (Z.leb_spec k 0) as [Hk|Hk].
    + exists []. unfold search. destruct (Z.leb_spec k 0); [reflexivity | lia].
    + destruct (data !! repo_id) as [items|] eqn:Hitems.
      * rewrite (search_unfold _ _ _ _ _ Hk Hitems).
        rewrite score_items_same_length; [now eexists|].
        eapply Forall_impl; [exact (Hdata _ _ Hitems)|].
        intros item. simpl. rewrite length__normalize. congruence.
      * exists []. unfold search. rewrite Hitems. now destruct (k <=? 0).
Qed.

End Store.

End VectorStoreExtras.

(** ** vector_store.py: zero vectors in binary64 *)

Module ZeroVectors.

Import VectorStore VectorStoreFacts Normalization.

Section Constant.

Context {F : Type} {A : Arith F} {X : Type} (key : X -> F) (c : F).

Hypothesis lt_c : lt c c = false.

Lemma insert_by_constant (x : X) (sorted : list X) :
  key x = c -> Forall (fun y => key y = c) sorted -> insert_by key x sorted = sorted ++ [x].
Proof.
  intros Hx. induction 1 as [|y sorted Hy _ IH]; [reflexivity|].
  simpl. now rewrite Hx, Hy, lt_c, IH.
Qed.

Lemma fold_insert_constant (l acc : list X) :
  Forall (fun y => key y = c) l -> Forall (fun y => key y = c) acc ->
  fold_left (fun sorted x => insert_by key x sorted) l acc = acc ++ l.
Proof.
  intros Hl. revert acc. induction Hl as [|x l Hx _ IH]; intros acc Hacc; simpl.
  - now rewrite app_nil_r.
  - rewrite insert_by_constant by assumption.
    rewrite IH, <- app_assoc; [reflexivity|].
    apply Forall_app. split; [exact Hacc | now repeat constructor].
Qed.

(** A list whose keys are all the same is left in its order. *)
Lemma sort_by_reverse_constant (l : list X) :
  Forall (fun y => key y = c) l -> sort_by_reverse key l = l.
Proof.
  intros Hl. unfold sort_by_reverse, sort_by.
  rewrite fold_insert_constant; [apply rev_involutive | | constructor].
  now apply Forall_rev.
Qed.

End Constant.

Section Store.

Context {Meta : Type}.

Local Abbreviation StoredItem := (@StoredItem float Meta).

Lemma cosine_zero_l (a b : list float) :
  Forall (fun x => is_zero x = true) a -> cosine a b = PrimFloat.zero.
Proof.
  intros Ha. unfold cosine. now rewrite (float_norm_zero a Ha).
Qed.

Lemma cosine_zero_r (a b : list float) :
  Forall (fun x => is_zero x = true) b -> cosine a b = PrimFloat.zero.
Proof.
  intros Hb. unfold cosine. rewrite (float_norm_zero b Hb).
  change (is_zero PrimFloat.zero) with true. now rewrite orb_true_r.
Qed.

(** X12. A query of zeros against vectors of its length: every item scores
    exactly 0.0, and [search] returns the first [k] items of the partition
    in the order of insertion. *)
Theorem search_zero_query (data : gmap str (list StoredItem)) (repo_id : str)
    (items : list StoredItem) (query_vector : list float) (k : Z) :
  0 < k -> data !! repo_id = Some items ->
  Forall (fun item : StoredItem => length item.1.2 = length query_vector) items ->
  Forall (fun x => is_zero x = true) query_vector ->
  search data repo_id query_vector k
  = Ok (firstn (Z.to_nat k)
          (map (fun item : StoredItem =>
                  {| id := item.1.1; score := 0%float; metadata := item.2 |}) items)).
Proof.
  intros Hk Hdata Hlen Hzero. rewrite (search_unfold _ _ _ _ _ Hk Hdata).
  rewrite (float__normalize_zero query_vector Hzero).
  rewrite score_items_same_length by assumption. rewrite app_nil_l.
  assert (Hscored : map (scored query_vector) items
                    = map (fun item : StoredItem =>
                             {| id := item.1.1; score := 0%float; metadata := item.2 |}) items).
  { apply map_ext. intros item. unfold scored. now rewrite (cosine_zero_l _ _ Hzero). }
  rewrite Hscored.
  rewrite (sort_by_reverse_constant score PrimFloat.zero); [reflexivity | reflexivity |].
  apply Forall_fmap. apply Forall_true. reflexivity.
Qed.

(** X13. A vector of zeros scores exactly 0.0 against every vector of its
    length, on either side of the comparison. *)
Theorem zero_vector_scores_zero (a b : list float) :
  length a = length b -> Forall (fun x => is_zero x = true) b ->
  _cosine_similarity a b = Ok 0%float /\ _cosine_similarity b a = Ok 0%float.
Proof.
  intros Hlen Hzero.
  rewrite !_cosine_similarity_same_length by congruence.
  now rewrite (cosine_zero_r a b Hzero), (cosine_zero_l b a Hzero).
Qed.

End Store.

End ZeroVectors.

(** ** vector_store.py: shared and copied lists *)

Module ObjectsFacts.

Import VectorStoreObjects.

Section Objects.

Context {F : Type} {A : Arith F} {Meta : Type}.

Local Abbreviation StoredItem := (@StoredItem Meta).
Local Abbreviation Heap := (list (list F)).
Local Abbreviation ref := nat.

(** The item with the contents of its list in place of the reference. *)
Definition deref (heap : Heap) (item : StoredItem) : @VectorStore.StoredItem F Meta :=
  (item.1.1, contents heap item.1.2, item.2).

(** The references of the items point to lists of the heap. *)
Definition valid (heap : Heap) (items : list StoredItem) : Prop :=
  Forall (fun item : StoredItem => (item.1.2 < length heap)%nat) items.

Definition valid_store (heap : Heap) (data : gmap str (list StoredItem)) : Prop :=
  forall repo_id items, data !! repo_id = Some items -> valid heap items.

Lemma contents_app_l (heap new : Heap) (r : ref) :
  (r < length heap)%nat -> contents (heap ++ new) r = contents heap r.
Proof. intros Hr. unfold contents. now rewrite lookup_app_l. Qed.

Lemma contents_new (heap : Heap) (v : list F) : contents (heap ++ [v]) (length heap) = v.
Proof. unfold contents. now rewrite list_lookup_middle. Qed.

Lemma contents_mutate_ne (heap : Heap) (r c : ref) (v : list F) :
  r <> c -> contents (mutate heap c v) r = contents heap r.
Proof. intros Hr. unfold contents, mutate. now rewrite list_lookup_insert_ne. Qed.

Lemma deref_app (heap new : Heap) (items : list StoredItem) :
  valid heap items -> map (deref (heap ++ new)) items = map (deref heap) items.
Proof.
  induction 1 as [|item items Hitem _ IH]; [reflexivity|].
  simpl. rewrite IH. unfold deref. now rewrite contents_app_l.
Qed.

Lemma valid_app (heap new : Heap) (items : list StoredItem) :
  valid heap items -> valid (heap ++ new) items.
Proof.
  unfold valid. intros H. eapply Forall_impl; [exact H|].
  intros item. simpl. rewrite length_app. lia.
Qed.

(** [_normalize] changes no list: it returns its argument when the norm is
    zero and a new list otherwise. *)
Lemma _normalize_spec (heap heap' : Heap) (r r' : ref) :
  (r < length heap)%nat -> _normalize heap r = (r', heap') ->
  (exists new, heap' = heap ++ new) /\
  (r' < length heap')%nat /\
  contents heap' r' = VectorStore._normalize (contents heap r) /\
  ((r' = r /\ is_zero (VectorStore.norm (contents heap r)) = true) \/
   (length heap <= r')%nat).
Proof.
  intros Hr. unfold _normalize, VectorStore._normalize, new_list.
  destruct (is_zero (VectorStore.norm (contents heap r))) eqn:Hz; intros [= <- <-].
  - repeat split; [exists []; now rewrite app_nil_r | exact Hr | now left].
  - repeat split.
    + now eexists.
    + rewrite length_app. simpl. lia.
    + apply contents_new.
    + now right.
Qed.

(** The loop of [add_vectors], reference by reference. *)
Lemma normalize_items_spec (heap heap' : Heap) (items acc : list StoredItem)
    (outcome : result (list StoredItem)) :
  valid heap items -> normalize_items heap items acc = (outcome, heap') ->
  (exists new, heap' = heap ++ new) /\
  match outcome with
  | Ok normalized_items =>
      exists out,
        normalized_items = acc ++ out /\
        Forall (fun item : StoredItem => contents heap item.1.2 <> []) items /\
        map (deref heap') out
        = map (fun item => (item.1.1, VectorStore._normalize item.1.2, item.2))
            (map (deref heap) items) /\
        valid heap' out /\
        Forall (fun item : StoredItem =>
                  ((item.1.2 < length heap)%nat /\
                   is_zero (VectorStore.norm (contents heap item.1.2)) = true) \/
                  (length heap <= item.1.2)%nat) out
  | Raise e =>
      e = ValueError VectorStore.msg_vector /\
      Exists (fun item : StoredItem => contents heap item.1.2 = []) items
  end.
Proof.
  intros Hvalid. revert heap acc Hvalid.
  induction items as [|[[cid r] md] items IH]; intros heap acc Hvalid; cbn [normalize_items].
  - intros [= <- <-]. split; [exists []; now rewrite app_nil_r|].
    exists []. rewrite app_nil_r. repeat split; constructor.
  - inversion Hvalid as [|? ? Hr Hvalid']; subst. cbn [fst snd] in Hr.
    destruct (contents heap r) as [|x v] eqn:Ev.
    + intros [= <- <-]. split; [exists []; now rewrite app_nil_r|].
      split; [reflexivity|]. left. exact Ev.
    + destruct (_normalize heap r) as [r1 heap1] eqn:En.
      destruct (_normalize_spec heap heap1 r r1 Hr En) as ([new1 ->] & Hr1 & Hc1 & Halias).
      intros Hrun.
      destruct (IH (heap ++ new1) _ (valid_app heap new1 items Hvalid') Hrun)
        as ([new ->] & Hout).
      split; [exists (new1 ++ new); now rewrite app_assoc|].
      destruct outcome as [normalized_items|e].
      * destruct Hout as (out & -> & Hne & Hmap & Hvout & Hal).
        exists ((cid, r1, md) :: out). rewrite <- app_assoc. split; [reflexivity|].
        split; [| split; [| split]].
        -- constructor; [cbn [fst snd]; congruence|].
           apply Forall_forall. intros item Hin.
           pose proof (proj1 (Forall_forall _ _) Hne item Hin) as Hitem.
           pose proof (proj1 (Forall_forall _ _) Hvalid' item Hin) as Hi.
           simpl in Hitem, Hi. now rewrite contents_app_l in Hitem.
        -- cbn [map]. f_equal.
           ++ unfold deref. cbn [fst snd]. rewrite contents_app_l by exact Hr1.
              now rewrite Hc1.
           ++ rewrite Hmap. now rewrite (deref_app heap new1 items Hvalid').
        -- constructor; [| exact Hvout]. cbn [fst snd]. rewrite length_app. lia.
        -- constructor.
           ++ cbn [fst snd]. destruct Halias as [[-> Hz] | Hge]; [left; now split | now right].
           ++ eapply Forall_impl; [exact Hal|]. intros item. cbn [fst snd].
              rewrite length_app. intros [[Hlt Hz] | Hge]; [| right; lia].
              destruct (decide (item.1.2 < length heap)%nat) as [Hi|Hi]; [| right; lia].
              left. split; [exact Hi|]. now rewrite contents_app_l in Hz.
      * destruct Hout as [-> Hex]. split; [reflexivity|]. right.
        clear -Hex Hvalid'. induction Hvalid' as [|item items Hitem _ IH'].
        -- inversion Hex.
        -- inversion Hex as [? ? Hhere | ? ? Hthere]; subst.
           ++ left. now rewrite contents_app_l in Hhere.
           ++ right. now apply IH'.
Qed.

End Objects.

End ObjectsFacts.

Module ObjectsExtras.

Import VectorStoreObjects ObjectsFacts.

Section Objects.

Context {F : Type} {A : Arith F} {Meta : Type}.

Local Abbreviation StoredItem := (@StoredItem Meta).
Local Abbreviation Heap := (list (list F)).
Local Abbreviation ref := nat.

Lemma snapshot_deref (heap : Heap) (data : gmap str (list StoredItem)) :
  snapshot heap data = map (deref heap) <$> data.
Proof. reflexivity. Qed.

Lemma snapshot_app (heap new : Heap) (data : gmap str (list StoredItem)) :
  valid_store heap data -> snapshot (heap ++ new) data = snapshot heap data.
Proof.
  intros Hvalid. rewrite !snapshot_deref. apply map_fmap_ext.
  intros repo_id items Hitems. apply deref_app. now apply (Hvalid repo_id).
Qed.

(** What [add_vectors] does to the heap and to [self.data]. *)
Lemma add_vectors_spec (heap : Heap) (data : gmap str (list StoredItem)) (repo_id : str)
    (items : list StoredItem) :
  valid heap items ->
  exists new out,
    (add_vectors heap data repo_id items).1.2 = heap ++ new /\
    ((add_vectors heap data repo_id items).2 = data \/
     (add_vectors heap data repo_id items).2
     = <[repo_id := default [] (data !! repo_id) ++ out]> data) /\
    Forall (fun item : StoredItem =>
              ((item.1.2 < length heap)%nat /\
               is_zero (VectorStore.norm (contents heap item.1.2)) = true) \/
              (length heap <= item.1.2)%nat) out.
Proof.
  intros Hvalid. unfold add_vectors.
  destruct repo_id as [|ch repo_id'] eqn:Erepo;
    [exists [], []; rewrite app_nil_r; repeat split; [now left | constructor]|].
  rewrite <- Erepo. clear Erepo.
  destruct items as [|item items'] eqn:Eitems;
    [exists [], []; rewrite app_nil_r; repeat split; [now left | constructor]|].
  rewrite <- Eitems in *. clear Eitems.
  destruct (normalize_items heap items []) as [outcome heap'] eqn:Erun.
  destruct (normalize_items_spec heap heap' items [] outcome Hvalid Erun) as ([new ->] & Hout).
  destruct outcome as [normalized_items|e].
  - destruct Hout as (out & -> & _ & _ & _ & Hal).
    exists new, out. repeat split; [now right | exact Hal].
  - exists new, []. repeat split; [now left | constructor].
Qed.

(** X14. [add_vectors] changes no list that exists: after the call, whatever
    its outcome, every list of the heap has the contents it had before. *)
Theorem add_vectors_keeps_lists (heap : Heap) (data : gmap str (list StoredItem))
    (repo_id : str) (items : list StoredItem) (r : ref) :
  valid heap items -> (r < length heap)%nat ->
  contents (add_vectors heap data repo_id items).1.2 r = contents heap r.
Proof.
  intros Hvalid Hr.
  destruct (add_vectors_spec heap data repo_id items Hvalid) as (new & out & -> & _).
  now apply contents_app_l.
Qed.

(** X15. The stored copy of a vector whose norm is not zero is independent
    of the caller's list: if the store did not refer to the list [c] before
    the call and the norm of [c] is not zero, then whatever the caller makes
    of [c] afterwards, the store reads the same vectors and every search with
    another list as query returns the same. *)
Theorem stored_copy_independent (heap : Heap) (data : gmap str (list StoredItem))
    (repo_id : str) (items : list StoredItem) (c : ref) (v' : list F) :
  valid heap items -> (c < length heap)%nat ->
  is_zero (VectorStore.norm (contents heap c)) = false ->
  (forall repo_id' items', data !! repo_id' = Some items' ->
     Forall (fun item : StoredItem => item.1.2 <> c) items') ->
  let heap' := (add_vectors heap data repo_id items).1.2 in
  let data' := (add_vectors heap data repo_id items).2 in
  snapshot (mutate heap' c v') data' = snapshot heap' data' /\
  (forall repo_id' (query_vector : ref) k, query_vector <> c ->
     search (mutate heap' c v') data' repo_id' query_vector k
     = search heap' data' repo_id' query_vector k).
Proof.
  intros Hvalid Hc Hnorm Hdata heap' data'.
  assert (Hsnap : snapshot (mutate heap' c v') data' = snapshot heap' data').
  { destruct (add_vectors_spec heap data repo_id items Hvalid) as (new & out & Hheap & Hd & Hal).
    fold heap' in Hheap. fold data' in Hd.
    assert (Hdata' : forall repo_id' items', data' !! repo_id' = Some items' ->
              Forall (fun item : StoredItem => item.1.2 <> c) items').
    { destruct Hd as [-> | ->]; [exact Hdata|].
      intros r its Hr. destruct (decide (r = repo_id)) as [->|Hneq].
      - rewrite lookup_insert_eq in Hr. injection Hr as <-.
        apply Forall_app. split.
        + destruct (data !! repo_id) as [old|] eqn:Eold; simpl; [| constructor].
          now apply (Hdata _ _ Eold).
        + eapply Forall_impl; [exact Hal|].
          intros item [[Hlt Hz] | Hge] Heq; simpl in *; rewrite Heq in *; [congruence | lia].
      - rewrite lookup_insert_ne in Hr by congruence. now apply (Hdata _ _ Hr). }
    rewrite !snapshot_deref. apply map_fmap_ext. intros r its Hr.
    specialize (Hdata' r its Hr). clear Hr.
    induction Hdata' as [|item its' Hitem _ IH]; [reflexivity|].
    cbn [map]. f_equal; [| exact IH].
    unfold deref. now rewrite contents_mutate_ne. }
  split; [exact Hsnap|].
  intros r q k Hq. unfold search. rewrite Hsnap. now rewrite contents_mutate_ne.
Qed.

(** X16. As long as nobody changes a list, the store of references behaves
    as the store of values: [add_vectors] has the same outcome on both, and
    the store it leaves reads as the store of values it leaves. *)
Theorem add_vectors_refines (heap : Heap) (data : gmap str (list StoredItem))
    (repo_id : str) (items : list StoredItem) :
  valid_store heap data -> valid heap items ->
  VectorStore.add_vectors (snapshot heap data) repo_id (map (deref heap) items)
  = ((add_vectors heap data repo_id items).1.1,
     snapshot (add_vectors heap data repo_id items).1.2 (add_vectors heap data repo_id items).2).
Proof.
  intros Hdata Hvalid.
  destruct (decide (repo_id = [])) as [->|Hrepo]; [reflexivity|].
  rewrite VectorStoreFacts.add_vectors_unfold by assumption.
  unfold add_vectors. destruct repo_id as [|ch repo_id'] eqn:Erepo; [congruence|].
  rewrite <- Erepo in *. clear Erepo.
  destruct items as [|item items'] eqn:Eitems; [reflexivity|].
  rewrite <- Eitems in *.
  assert (Hcons : map (deref heap) items <> []) by (rewrite Eitems; discriminate).
  destruct (map (deref heap) items) as [|d ds] eqn:Ed; [congruence|].
  rewrite <- Ed. clear Eitems Ed Hcons.
  destruct (normalize_items heap items []) as [outcome heap'] eqn:Erun.
  destruct (normalize_items_spec heap heap' items [] outcome Hvalid Erun) as ([new ->] & Hout).
  destruct outcome as [normalized_items|e]; cbn [fst snd].
  - destruct Hout as (out & -> & Hne & Hmap & _ & _). rewrite app_nil_l.
    rewrite VectorStoreFacts.normalize_items_ok.
    + rewrite app_nil_l. f_equal.
      rewrite !snapshot_deref, fmap_insert, map_app, Hmap.
      rewrite <- !snapshot_deref, (snapshot_app heap new data Hdata).
      f_equal. f_equal.
      rewrite snapshot_deref, lookup_fmap.
      destruct (data !! repo_id) as [old|] eqn:Eold; simpl; [| reflexivity].
      symmetry. apply deref_app. now apply (Hdata repo_id).
    + apply Forall_fmap. exact Hne.
  - destruct Hout as [-> Hex].
    rewrite VectorStoreFacts.normalize_items_empty_vector.
    + now rewrite (snapshot_app heap new data Hdata).
    + apply Exists_fmap. exact Hex.
Qed.

End Objects.

End ObjectsExtras.

(** ** embeddings.py: further properties *)

Module EmbeddingsExtras.

Import Embeddings EmbeddingsFacts.

(** A character of a digest: a decimal digit or a letter from [a] to [f]. *)
Definition hex_char (c : N) : Prop := (48 <= c <= 57)%N \/ (97 <= c <= 102)%N.

Lemma hex_digit_bounds (c : N) : hex_char c -> 0 <= hex_digit c <= 15.
Proof.
  unfold hex_char, hex_digit. intros Hc.
  destruct (N.leb_spec 48 c); destruct (N.leb_spec c 57); simpl; try lia;
    destruct (N.leb_spec 97 c); destruct (N.leb_spec c 102); simpl; lia.
Qed.

Lemma int16_pair_bounds (c1 c2 : N) : hex_char c1 -> hex_char c2 -> 0 <= int16 [c1; c2] <= 255.
Proof.
  intros H1 H2. apply hex_digit_bounds in H1, H2. unfold int16. simpl fold_left. lia.
Qed.

Lemma text_cases (text : str) :
  Forall (fun c => ~ surrogate c) text \/ Exists surrogate text.
Proof.
  induction text as [|c text [IH|IH]].
  - left. constructor.
  - destruct (surrogate_dec c) as [Hc|Hc]; [right; now left | left; now constructor].
  - right. now right.
Qed.

Section Embed.

Context {F : Type} {A : Arith F}.

Variable sha256_hexdigest : list N -> str.

Hypothesis sha256_hexdigest_length : forall data, length (sha256_hexdigest data) = 64%nat.

(** A value [n / 255.0] for a byte [n]. *)
Definition byte_fraction (x : F) : Prop :=
  exists n, 0 <= n <= 255 /\ x = div (of_int n) (of_int 255).

(** X17. A dimension that is not positive is refused before any text is
    looked at: [embed_texts] raises the error about [dim] whatever the texts
    are, also for texts that could not be encoded. *)
Theorem embed_texts_invalid_dim (fuel : nat) (texts : list str) (dim : Z) :
  dim <= 0 ->
  embed_texts (F := F) sha256_hexdigest fuel texts dim = Some (Raise (ValueError msg_dim)).
Proof.
  intros Hdim. unfold embed_texts. destruct (Z.leb_spec dim 0); [reflexivity | lia].
Qed.

(** X18. For [dim > 0] and texts without surrogates, [embed_texts] returns
    one vector for each text, each of [dim] components; every run of the loop
    of [_hex_stream] ends within [2 * dim + 1] tests of its condition. *)
Theorem embed_texts_shape (fuel : nat) (texts : list str) (dim : Z) :
  0 < dim -> 1 + dim * 2 <= Z.of_nat fuel ->
  Forall (fun text => Forall (fun c => ~ surrogate c) text) texts ->
  exists vectors : list (list F),
    embed_texts sha256_hexdigest fuel texts dim = Some (Ok vectors) /\
    length vectors = length texts /\
    Forall (fun u => Z.of_nat (length u) = dim) vectors.
Proof.
  intros Hdim Hfuel Htexts. unfold embed_texts.
  destruct (Z.leb_spec dim 0); [lia|].
  destruct (embed_loop_ok sha256_hexdigest sha256_hexdigest_length fuel texts dim []
              Htexts Hdim Hfuel) as (vectors & -> & Hlen & Hall).
  exists vectors. repeat split; [exact Hlen|].
  eapply Forall_impl; [exact Hall|]. now intros u [Hu _].
Qed.

(** X19. A text that holds a surrogate cannot be encoded: with [dim > 0],
    [embed_texts] raises [UnicodeEncodeError] and returns no vector, not even
    for the texts in front of it. *)
Theorem embed_texts_surrogate (fuel : nat) (texts : list str) (dim : Z) :
  0 < dim -> 1 + dim * 2 <= Z.of_nat fuel ->
  Exists (fun text => Exists surrogate text) texts ->
  embed_texts (F := F) sha256_hexdigest fuel texts dim = Some (Raise UnicodeEncodeError).
Proof.
  intros Hdim Hfuel Hex. unfold embed_texts.
  destruct (Z.leb_spec dim 0); [lia|].
  apply (embed_loop_surrogate sha256_hexdigest sha256_hexdigest_length); try assumption.
  apply Forall_forall. intros text _. apply text_cases.
Qed.

(** The digest is written in hexadecimal digits. *)
Hypothesis sha256_hexdigest_hex : forall data, Forall hex_char (sha256_hexdigest data).

Lemma hex_stream_loop_hex (fuel : nat) (text : str) (total_chars : Z) (hex_data : str)
    (counter : Z) (outcome : str) :
  Forall hex_char hex_data ->
  hex_stream_loop sha256_hexdigest fuel text total_chars hex_data counter = Some (Ok outcome) ->
  Forall hex_char outcome.
Proof.
  revert hex_data counter. induction fuel as [|fuel IH]; intros hex_data counter Hhex;
    cbn [hex_stream_loop]; [discriminate|].
  destruct (Z.of_nat (length hex_data) <? total_chars); [| now intros [= <-]].
  destruct (encode (text ++ lit ":" ++ str_of_int counter)) as [bytes|e]; [| discriminate].
  apply IH. apply Forall_app. split; [exact Hhex | apply sha256_hexdigest_hex].
Qed.

Lemma _hex_stream_hex (fuel : nat) (text : str) (total_chars : Z) (hex_data : str) :
  _hex_stream sha256_hexdigest fuel text total_chars = Some (Ok hex_data) ->
  Forall hex_char hex_data.
Proof.
  unfold _hex_stream. destruct (encode text) as [bytes|e]; [| discriminate].
  destruct (hex_stream_loop sha256_hexdigest fuel text total_chars (sha256_hexdigest bytes) 1)
    as [[outcome|e]|] eqn:Erun; try discriminate.
  intros [= <-]. apply hex_stream_loop_hex in Erun; [| apply sha256_hexdigest_hex].
  unfold slice. apply Forall_take. now apply Forall_drop.
Qed.

Lemma chunk_values_fractions (hex_data : str) :
  Forall hex_char hex_data -> Nat.Even (length hex_data) ->
  Forall byte_fraction (chunk_values hex_data).
Proof.
  induction hex_data as [hex_data IH] using (induction_ltof1 _ (@length N)).
  unfold ltof in IH. intros Hhex Heven.
  destruct hex_data as [|c1 [|c2 hex_data']]; cbn [chunk_values].
  - constructor.
  - destruct Heven as [n Hn]. simpl in Hn. lia.
  - inversion Hhex as [|? ? H1 Hhex']; subst. inversion Hhex' as [|? ? H2 Hhex'']; subst.
    constructor.
    + exists (int16 [c1; c2]). split; [now apply int16_pair_bounds | reflexivity].
    + apply IH; [simpl; lia | exact Hhex'' |].
      destruct Heven as [n Hn]. exists (n - 1)%nat. simpl in Hn. lia.
Qed.

(** X20. Every vector that [embed_texts] returns is the normalized form of
    a vector of [dim] values [n / 255.0], one for each byte [0 <= n <= 255]
    of the hash stream. *)
Theorem embed_texts_byte_fractions (fuel : nat) (texts : list str) (dim : Z)
    (vectors : list (list F)) :
  0 < dim -> 1 + dim * 2 <= Z.of_nat fuel ->
  embed_texts sha256_hexdigest fuel texts dim = Some (Ok vectors) ->
  Forall (fun u => exists raw, u = _normalize raw /\
                     Z.of_nat (length raw) = dim /\ Forall byte_fraction raw) vectors.
Proof.
  intros Hdim Hfuel. unfold embed_texts. destruct (Z.leb_spec dim 0); [lia|].
  assert (Hgen : forall acc,
    Forall (fun u => exists raw, u = _normalize raw /\
                       Z.of_nat (length raw) = dim /\ Forall byte_fraction raw) acc ->
    embed_loop sha256_hexdigest fuel texts dim acc = Some (Ok vectors) ->
    Forall (fun u => exists raw, u = _normalize raw /\
                       Z.of_nat (length raw) = dim /\ Forall byte_fraction raw) vectors).
  { induction texts as [|text texts IH]; intros acc Hacc; cbn [embed_loop].
    - now intros [= <-].
    - destruct (_hex_stream sha256_hexdigest fuel text (dim * 2)) as [[hex_data|e]|] eqn:Ehex;
        try discriminate.
      apply IH. apply Forall_app. split; [exact Hacc|]. constructor; [| constructor].
      destruct (text_cases text) as [Hok|Hbad];
        [| rewrite (_hex_stream_surrogate sha256_hexdigest fuel text (dim * 2) Hbad) in Ehex;
           discriminate].
      destruct (_hex_stream_ok sha256_hexdigest sha256_hexdigest_length fuel text (dim * 2)
                  Hok ltac:(lia) ltac:(lia)) as (hex' & Hhex' & Hlen).
      rewrite Ehex in Hhex'. injection Hhex' as <-.
      exists (slice (chunk_values hex_data) 0 dim). split; [reflexivity|]. split.
      + rewrite PyFacts.length_slice; rewrite ?(length_chunk_values hex_data dim); lia.
      + unfold slice. apply Forall_take, Forall_drop.
        apply chunk_values_fractions; [now apply (_hex_stream_hex fuel text (dim * 2))|].
        exists (Z.to_nat dim). lia. }
  apply Hgen. constructor.
Qed.

End Embed.

End EmbeddingsExtras.

(** ** The further properties on concrete inputs *)

Module ExtrasExamples.

Import VectorStore Examples.

Lemma repo_A_lookup : repo_A !! lit "repo-A" = Some repo_A_items.
Proof. vm_compute. reflexivity. Qed.

Lemma repo_names_differ : lit "repo-A" <> lit "repo-B".
Proof. intros H. vm_compute in H. discriminate H. Qed.

(** One more vector for the store of the demonstration. *)
Lemma add_vectors_appends_witness :
  (add_vectors repo_A (lit "repo-A") [ (lit "chunk-4", [3; 4]%float, lit "more") ]).1 = Ok tt /\
  default [] ((add_vectors repo_A (lit "repo-A")
                 [ (lit "chunk-4", [3; 4]%float, lit "more") ]).2 !! lit "repo-A")
  = default [] (repo_A !! lit "repo-A")
    ++ map VectorStoreExtras.normalized [ (lit "chunk-4", [3; 4]%float, lit "more") ] /\
  (forall other, other <> lit "repo-A" ->
     (add_vectors repo_A (lit "repo-A")
        [ (lit "chunk-4", [3; 4]%float, lit "more") ]).2 !! other = repo_A !! other).
Proof.
  apply (VectorStoreExtras.add_vectors_appends repo_A (lit "repo-A")).
  - discriminate.
  - repeat constructor; discriminate.
Defined.

(** A second repository next to the one of the demonstration. *)
Lemma search_other_repository_witness :
  search (add_vectors repo_A (lit "repo-B") [ (lit "b-1", [5; 12]%float, lit "other") ]).2
    (lit "repo-A") [1; 1]%float 3
  = search repo_A (lit "repo-A") [1; 1]%float 3.
Proof.
  apply VectorStoreExtras.search_other_repository. exact repo_names_differ.
Defined.

Lemma search_results_of_partition_witness :
  exists out rest,
    search repo_A (lit "repo-A") [1; 1]%float 2 = Ok out /\
    length out = Nat.min (Z.to_nat 2) (length repo_A_items) /\
    Permutation (out ++ rest) (map (scored (_normalize [1; 1]%float)) repo_A_items).
Proof.
  apply (VectorStoreExtras.search_results_of_partition repo_A (lit "repo-A") repo_A_items).
  - lia.
  - exact repo_A_lookup.
  - repeat constructor.
Defined.

Lemma search_top_k_prefix_witness :
  match search repo_A (lit "repo-A") [1; 1]%float 3 with
  | Ok out' => search repo_A (lit "repo-A") [1; 1]%float 2 = Ok (firstn (Z.to_nat 2) out')
  | Raise e => search repo_A (lit "repo-A") [1; 1]%float 2 = Raise e
  end.
Proof.
  apply (VectorStoreExtras.search_top_k_prefix repo_A (lit "repo-A") [1; 1]%float 2 3). lia.
Defined.

Lemma init_dimension : VectorStoreExtras.dimension (F := float) (Meta := Meta) 2 init.
Proof. intros repo_id items H. unfold init in H. now rewrite lookup_empty in H. Qed.

(** The empty store, before it is given vectors of two components. *)
Lemma dimension_preserved_witness :
  (forall repo_id items,
     Forall (fun item : @StoredItem float Meta => length item.1.2 = 2%nat) items ->
     VectorStoreExtras.dimension 2 (add_vectors init repo_id items).2) /\
  (forall repo_id query_vector k,
     length query_vector = 2%nat ->
     exists out, search (init : gmap str (list (@StoredItem float Meta)))
                   repo_id query_vector k = Ok out).
Proof.
  apply (VectorStoreExtras.dimension_preserved 2 init). exact init_dimension.
Defined.

(** A query of zeros against the store of the demonstration. *)
Lemma search_zero_query_witness :
  search repo_A (lit "repo-A") [0; 0]%float 2
  = Ok (firstn (Z.to_nat 2)
          (map (fun item : @StoredItem float Meta =>
                  {| id := item.1.1; score := 0%float; metadata := item.2 |}) repo_A_items)).
Proof.
  apply ZeroVectors.search_zero_query.
  - lia.
  - exact repo_A_lookup.
  - repeat constructor.
  - repeat constructor.
Defined.

Lemma zero_vector_scores_zero_witness :
  _cosine_similarity [1; 2]%float [0; (-0)]%float = Ok 0%float /\
  _cosine_similarity [0; (-0)]%float [1; 2]%float = Ok 0%float.
Proof.
  apply ZeroVectors.zero_vector_scores_zero.
  - reflexivity.
  - repeat constructor.
Defined.

(** *** Lists of the caller *)

(** The vector [3.0, 4.0] at address 0 and the query [1.0, 0.0] at address 1. *)
Definition heap_3_4 : list (list float) := [ [3; 4]%float; [1; 0]%float ].

Definition item_3_4 : list (@VectorStoreObjects.StoredItem Meta) :=
  [ (lit "id", 0%nat, lit "m") ].

Lemma item_3_4_valid : ObjectsFacts.valid heap_3_4 item_3_4.
Proof. repeat constructor. Qed.

Lemma empty_store_valid :
  ObjectsFacts.valid_store heap_3_4 (∅ : gmap str (list (@VectorStoreObjects.StoredItem Meta))).
Proof. intros repo_id items H. now rewrite lookup_empty in H. Qed.

Lemma add_vectors_keeps_lists_witness :
  VectorStoreObjects.contents
    (VectorStoreObjects.add_vectors heap_3_4 ∅ (lit "repo") item_3_4).1.2 0%nat
  = VectorStoreObjects.contents heap_3_4 0%nat.
Proof.
  apply ObjectsExtras.add_vectors_keeps_lists.
  - exact item_3_4_valid.
  - simpl. lia.
Defined.

(** The caller overwrites its list [3.0, 4.0] with [9.0, 9.0]. *)
Lemma stored_copy_independent_witness :
  let heap' := (VectorStoreObjects.add_vectors heap_3_4 ∅ (lit "repo") item_3_4).1.2 in
  let data' := (VectorStoreObjects.add_vectors heap_3_4 ∅ (lit "repo") item_3_4).2 in
  VectorStoreObjects.snapshot (VectorStoreObjects.mutate heap' 0%nat [9; 9]%float) data'
  = VectorStoreObjects.snapshot heap' data' /\
  (forall repo_id' (query_vector : nat) k, query_vector <> 0%nat ->
     VectorStoreObjects.search (VectorStoreObjects.mutate heap' 0%nat [9; 9]%float) data'
       repo_id' query_vector k
     = VectorStoreObjects.search heap' data' repo_id' query_vector k).
Proof.
  apply (ObjectsExtras.stored_copy_independent heap_3_4 ∅ (lit "repo") item_3_4 0%nat
           [9; 9]%float).
  - exact item_3_4_valid.
  - simpl. lia.
  - vm_compute. reflexivity.
  - intros repo_id' items' H. now rewrite lookup_empty in H.
Defined.

Lemma add_vectors_refines_witness :
  add_vectors (VectorStoreObjects.snapshot heap_3_4 ∅) (lit "repo")
    (map (ObjectsFacts.deref heap_3_4) item_3_4)
  = ((VectorStoreObjects.add_vectors heap_3_4 ∅ (lit "repo") item_3_4).1.1,
     VectorStoreObjects.snapshot
       (VectorStoreObjects.add_vectors heap_3_4 ∅ (lit "repo") item_3_4).1.2
       (VectorStoreObjects.add_vectors heap_3_4 ∅ (lit "repo") item_3_4).2).
Proof.
  apply ObjectsExtras.add_vectors_refines.
  - exact empty_store_valid.
  - exact item_3_4_valid.
Defined.

(** *** Embeddings with a stand-in for the hash *)

(** A function with the shape of a digest, 64 hexadecimal digits, in place
    of SHA-256: the digit depends on the number of bytes hashed. *)
Definition stand_in_digest (data : list N) : str :=
  repeat (if Nat.even (length data) then 97%N else 53%N) 64.

Lemma stand_in_digest_length (data : list N) : length (stand_in_digest data) = 64%nat.
Proof. apply repeat_length. Qed.

Lemma stand_in_digest_hex (data : list N) :
  Forall EmbeddingsExtras.hex_char (stand_in_digest data).
Proof.
  unfold stand_in_digest. apply Forall_forall. intros c Hc.
  apply list_elem_of_In, repeat_spec in Hc. subst c.
  unfold EmbeddingsExtras.hex_char. destruct (Nat.even (length data)); lia.
Qed.

Lemma embed_texts_invalid_dim_witness :
  Embeddings.embed_texts (F := float) stand_in_digest 1 [lit "hello world"] 0
  = Some (Raise (ValueError Embeddings.msg_dim)).
Proof. apply EmbeddingsExtras.embed_texts_invalid_dim. lia. Defined.

(** The three texts of the module's demonstration, with eight components. *)
Lemma embed_texts_shape_witness :
  exists vectors : list (list float),
    Embeddings.embed_texts stand_in_digest 17
      [lit "hello world"; lit "hello world"; lit "different"] 8 = Some (Ok vectors) /\
    length vectors = length [lit "hello world"; lit "hello world"; lit "different"] /\
    Forall (fun u => Z.of_nat (length u) = 8) vectors.
Proof.
  apply (EmbeddingsExtras.embed_texts_shape stand_in_digest stand_in_digest_length).
  - lia.
  - lia.
  - repeat (apply List.Forall_cons; [apply EmbeddingsFacts.lit_not_surrogate|]).
    apply List.Forall_nil.
Defined.

(** A text with the lone surrogate U+D800 behind a text that is fine. *)
Lemma embed_texts_surrogate_witness :
  Embeddings.embed_texts (F := float) stand_in_digest 17 [lit "fine"; [104; 55296; 105]%N] 8
  = Some (Raise UnicodeEncodeError).
Proof.
  apply (EmbeddingsExtras.embed_texts_surrogate stand_in_digest stand_in_digest_length).
  - lia.
  - lia.
  - right. left. right. left. unfold EmbeddingsFacts.surrogate. lia.
Defined.

Lemma embed_texts_byte_fractions_witness :
  exists vectors : list (list float),
    Embeddings.embed_texts stand_in_digest 17 [lit "hello world"] 8 = Some (Ok vectors) /\
    Forall (fun u => exists raw, u = Embeddings._normalize raw /\
                       Z.of_nat (length raw) = 8 /\
                       Forall EmbeddingsExtras.byte_fraction raw) vectors.
Proof.
  eexists. split; [vm_compute; reflexivity|].
  apply (EmbeddingsExtras.embed_texts_byte_fractions stand_in_digest stand_in_digest_length
           stand_in_digest_hex 17 [lit "hello world"] 8).
  - lia.
  - lia.
  - vm_compute. reflexivity.
Defined.

End ExtrasExamples.

(** ** The score in exact arithmetic *)

Module ExactScore.

Import VectorStore ExactFacts.

Local Open Scope R_scope.











End ExactScore.
